(** * server.py: a shallow embedding of the FastMCP demo server

    The development follows [src/server.py]: Python text is a sequence of
    code points, exceptions are a sum type, the two module globals
    [_browser] and [_browser_context] form an explicit store, and the two
    [async def] session functions are resumption programs whose [await]
    points are the only places where the event loop may switch tasks. *)

From Stdlib Require Import ZArith NArith Lia String Ascii List.
From Stdlib Require Import Strings.Byte.
From Stdlib Require Import Floats.PrimFloat.
From stdpp Require Import base option list gmap.

Local Open Scope N_scope.
#[local] Set Warnings "-register-all".

(** ** Python text *)

(** A Python [str] is a finite sequence of Unicode code points. *)
Abbreviation pystr := (list N) (only parsing).

(** An ASCII literal of the source, as code points. *)
Definition lit (s : string) : pystr :=
  List.map N_of_ascii (list_ascii_of_string s).

(** [str.isspace] on one code point, the table that [str.strip()] with no
    argument uses (CPython's [_PyUnicode_IsWhitespace]). *)
Definition is_space (c : N) : bool :=
  ((9 <=? c) && (c <=? 13))            (* \t \n \v \f \r *)
  || ((28 <=? c) && (c <=? 32))        (* FS GS RS US and the space *)
  || (c =? 133) || (c =? 160)          (* NEL, no-break space *)
  || (c =? 5760)                       (* U+1680 *)
  || ((8192 <=? c) && (c <=? 8202))    (* U+2000 .. U+200A *)
  || (c =? 8232) || (c =? 8233)        (* line and paragraph separators *)
  || (c =? 8239) || (c =? 8287) || (c =? 12288).

Fixpoint lstrip (s : pystr) : pystr :=
  match s with
  | c :: r => if is_space c then lstrip r else s
  | [] => []
  end.

Definition rstrip (s : pystr) : pystr := rev (lstrip (rev s)).

(** [s.strip()] *)
Definition strip (s : pystr) : pystr := rstrip (lstrip s).

(** [sep.join(parts)] *)
Fixpoint join (sep : pystr) (parts : list pystr) : pystr :=
  match parts with
  | [] => []
  | [p] => p
  | p :: rest => p ++ sep ++ join sep rest
  end.

(** What "trimmed of surrounding whitespace" means: [t] is [s] without a
    run of whitespace at each end, and [t] itself neither starts nor ends
    with whitespace. *)
Definition trimmed_from (s t : pystr) : Prop :=
  (exists pre post,
      s = pre ++ t ++ post /\
      forallb is_space pre = true /\ forallb is_space post = true)
  /\ (forall c, head t = Some c -> is_space c = false)
  /\ (forall c, last t = Some c -> is_space c = false).

(** ** Exceptions *)

Inductive exn : Type :=
| FileNotFoundError (msg : pystr)
| RuntimeError (msg : pystr)
| CalledProcessError (returncode : Z) (output err : pystr)
| UnicodeDecodeError
| UnicodeEncodeError
| OSError (msg : pystr)
| ValueError (msg : pystr)
| PlaywrightError (msg : pystr).

(** The result of running a piece of Python: a value or a raised exception. *)
Inductive outcome (A : Type) : Type :=
| Returned (a : A)
| Raised (e : exn).
Arguments Returned {A} a.
Arguments Raised {A} e.

Definition is_raised {A} (o : outcome A) : bool :=
  match o with Raised _ => true | Returned _ => false end.

(** The error taxonomy of the specification (section 7). *)
Inductive error_kind : Type :=
| UnknownOperationError
| InvalidArgumentError
| DuplicateNameError
| ResourceNotFoundError
| SessionInitError
| CommandExecutionError
| HandlerError.

(** Which kind of the taxonomy a Python exception of the server stands
    for: the missing-file error of [read_resource], the [RuntimeError] that
    [execute_command] raises, and the browser engine's own error, which the
    session functions let through unchanged.  The other classes belong to
    no kind of the taxonomy. *)
Definition error_kind_of (e : exn) : option error_kind :=
  match e with
  | FileNotFoundError _ => Some ResourceNotFoundError
  | RuntimeError _ => Some CommandExecutionError
  | PlaywrightError _ => Some SessionInitError
  | CalledProcessError _ _ _ | UnicodeDecodeError | UnicodeEncodeError
  | OSError _ | ValueError _ => None
  end.

(** ** The command executor *)

Module Command.

(** [subprocess.CompletedProcess] with [text=True, capture_output=True]. *)
Record CompletedProcess : Type := {
  returncode : Z;
  stdout : pystr;
  stderr : pystr;
}.

(** What the host does with a command line handed to the shell.  The
    shell may not run at all (it cannot be spawned, the command holds a
    NUL): then there is no exit status.  Otherwise it runs to its exit,
    and [subprocess.run] decodes what it captured only after that: the
    run has an exit status whether the captured output is text in the
    locale's encoding, which gives the [CompletedProcess], or not. *)
Inductive host_failure : Type :=
| SpawnOSError (msg : pystr)
| SpawnValueError (msg : pystr).

Inductive shell_run : Type :=
| Exited (p : CompletedProcess)
| ExitedUndecodable (status : Z)
| NotRun (f : host_failure).

Definition raise_host (f : host_failure) : exn :=
  match f with
  | SpawnOSError m => OSError m
  | SpawnValueError m => ValueError m
  end.

(** The exit status of the shell, when it ran. *)
Definition exit_status (r : shell_run) : option Z :=
  match r with
  | Exited p => Some (returncode p)
  | ExitedUndecodable status => Some status
  | NotRun _ => None
  end.

Section WithHost.
(** The host shell, as the process sees it at the time of the call. *)
Variable shell : pystr -> shell_run.

(** [subprocess.run(command, shell=True, check=True, text=True,
    capture_output=True)]: the captured output is decoded first, and a
    failure to decode it is raised whatever the exit status; then, with
    [check=True], a nonzero return code is turned into
    [CalledProcessError]. *)
Definition subprocess_run (command : pystr) : outcome CompletedProcess :=
  match shell command with
  | Exited p =>
      if (returncode p =? 0)%Z then Returned p
      else Raised (CalledProcessError (returncode p) (stdout p) (stderr p))
  | ExitedUndecodable _ => Raised UnicodeDecodeError
  | NotRun f => Raised (raise_host f)
  end.

(** [execute_command], lines 84-99. *)
Definition execute_command (command : pystr) : outcome pystr :=
  match subprocess_run command with
  | Returned result => Returned (strip (stdout result))
  | Raised (CalledProcessError _ _ e_stderr) =>
      Raised (RuntimeError (lit "Command failed with error: " ++ strip e_stderr))
  | Raised e => Raised e
  end.
End WithHost.

End Command.

(** ** Files: paths, the file system, text decoding *)

Module Files.

(** A node of the host file system: a regular file with its bytes, or a
    directory with its entries.  The hosts described are those on which
    every directory can be searched and every file read, and that hold
    no symbolic links. *)
Inductive node : Type :=
| File (content : list byte)
| Dir (entries : list (pystr * node)).

Fixpoint lookup_entry (name : pystr) (es : list (pystr * node)) : option node :=
  match es with
  | [] => None
  | (n, x) :: rest => if bool_decide (n = name) then Some x else lookup_entry name rest
  end.

(** The node of the tree at a path without [..], from a directory
    downwards. *)
Fixpoint walk (n : node) (p : list pystr) : option node :=
  match p with
  | [] => Some n
  | s :: p' =>
      match n with
      | Dir es =>
          match lookup_entry s es with
          | Some child => walk child p'
          | None => None
          end
      | File _ => None
      end
  end.

Definition dotdot : pystr := lit "..".

(** *** pathlib *)

Definition slash : N := 47.

(** [s.split("/")] *)
Fixpoint split_slash (acc s : pystr) : list pystr :=
  match s with
  | [] => [rev acc]
  | c :: r => if c =? slash then rev acc :: split_slash [] r else split_slash (c :: acc) r
  end.

(** The components pathlib keeps of a path string: empty components and
    [.] are dropped, [..] is kept as it is. *)
Definition parts (s : pystr) : list pystr :=
  List.filter (fun seg => negb (bool_decide (seg = [])) && negb (bool_decide (seg = lit ".")))
              (split_slash [] s).

Definition is_absolute (s : pystr) : bool :=
  match s with
  | c :: _ => c =? slash
  | [] => false
  end.

(** [base / name]: an absolute right operand replaces the left one. *)
Definition joinpath (base : list pystr) (name : pystr) : list pystr :=
  if is_absolute name then parts name else base ++ parts name.

(** *** Text mode *)

Definition continuation (b : N) : bool := (128 <=? b) && (b <=? 191).

(** The bounds of the second byte of a three- and of a four-byte sequence
    (no overlong forms, no surrogates, nothing above U+10FFFF). *)
Definition second_of_3 (b0 b1 : N) : bool :=
  if b0 =? 224 then (160 <=? b1) && (b1 <=? 191)
  else if b0 =? 237 then (128 <=? b1) && (b1 <=? 159)
  else continuation b1.

Definition second_of_4 (b0 b1 : N) : bool :=
  if b0 =? 240 then (144 <=? b1) && (b1 <=? 191)
  else if b0 =? 244 then (128 <=? b1) && (b1 <=? 143)
  else continuation b1.

(** [bytes.decode("utf-8")] with [errors="strict"]; [None] stands for
    [UnicodeDecodeError]. *)
Fixpoint decode_utf8 (bs : list N) : option pystr :=
  match bs with
  | [] => Some []
  | b0 :: r0 =>
      if b0 <? 128 then cons b0 <$> decode_utf8 r0
      else if (194 <=? b0) && (b0 <=? 223) then
        match r0 with
        | b1 :: r1 =>
            if continuation b1
            then cons ((b0 - 192) * 64 + (b1 - 128)) <$> decode_utf8 r1
            else None
        | _ => None
        end
      else if (224 <=? b0) && (b0 <=? 239) then
        match r0 with
        | b1 :: b2 :: r2 =>
            if second_of_3 b0 b1 && continuation b2
            then cons ((b0 - 224) * 4096 + (b1 - 128) * 64 + (b2 - 128)) <$> decode_utf8 r2
            else None
        | _ => None
        end
      else if (240 <=? b0) && (b0 <=? 244) then
        match r0 with
        | b1 :: b2 :: b3 :: r3 =>
            if second_of_4 b0 b1 && continuation b2 && continuation b3
            then cons ((b0 - 240) * 262144 + (b1 - 128) * 4096 + (b2 - 128) * 64 + (b3 - 128))
                   <$> decode_utf8 r3
            else None
        | _ => None
        end
      else None
  end.

(** [str.encode("utf-8")] of one code point and of a text. *)
Definition encode_point (c : N) : list N :=
  if c <? 128 then [c]
  else if c <? 2048 then [192 + c / 64; 128 + c mod 64]
  else if c <? 65536 then [224 + c / 4096; 128 + (c / 64) mod 64; 128 + c mod 64]
  else [240 + c / 262144; 128 + (c / 4096) mod 64; 128 + (c / 64) mod 64; 128 + c mod 64].


Definition CR : N := 13.
Definition LF : N := 10.

(** The code points a text can hold and UTF-8 can encode: the Unicode
    scalar values, that is everything up to U+10FFFF but the surrogates. *)
Definition scalar (c : N) : bool :=
  (c <? 55296) || ((57344 <=? c) && (c <? 1114112)).

(** Reading in text mode with [newline=None], the default of [open] and of
    [Path.read_text]: [\r\n] and a lone [\r] both arrive as [\n]. *)
Fixpoint universal_newlines (s : pystr) : pystr :=
  match s with
  | [] => []
  | c :: r =>
      if c =? CR then
        match r with
        | d :: r' => if d =? LF then LF :: universal_newlines r' else LF :: universal_newlines r
        | [] => [LF]
        end
      else c :: universal_newlines r
  end.

(** *** The host's view of a path

    The path of a [Path] object reaches the host as the bytes of
    [os.fsencode]: UTF-8, with the surrogates U+DC80 to U+DCFF standing
    for the bytes 128 to 255; another surrogate cannot be encoded. *)
Definition escape (c : N) : bool := (56448 <=? c) && (c <=? 56575).

Definition fs_point (c : N) : option (list N) :=
  if scalar c then Some (encode_point c)
  else if escape c then Some [c - 56320]
  else None.

Definition fsencode (s : pystr) : option (list N) :=
  @List.concat N <$> mapM fs_point s.

Definition fs_length (s : pystr) : nat :=
  match fsencode s with Some bs => length bs | None => O end.

(** The limits of Linux on the bytes of a component and of a whole path
    (the latter with its final NUL). *)
Definition NAME_MAX : nat := 255.
Definition PATH_MAX : nat := 4096.

(** Why a path denotes no node: [ENOENT], [ENOTDIR], [ENAMETOOLONG], a
    path that cannot be encoded, a path that holds a NUL. *)
Inductive stat_failure : Type :=
| NoEntry
| NotDirectory
| NameTooLong
| NotEncodable
| EmbeddedNull.

(** The bytes of the path string [/c1/c2/...]. *)
Definition path_bytes (bs : list (list N)) : nat :=
  match bs with
  | [] => 1%nat
  | _ => sum_list_with (fun b => S (length b)) bs
  end.

(** What stops a path before the host looks anything up: the encoding
    first, then the NUL, then the length of the whole path. *)
Definition refused (p : list pystr) : option stat_failure :=
  match mapM fsencode p with
  | None => Some NotEncodable
  | Some bs =>
      if existsb (existsb (N.eqb 0)) bs then Some EmbeddedNull
      else if (PATH_MAX <=? path_bytes bs)%nat then Some NameTooLong
      else None
  end.

(** The host's path resolution from the root, component by component:
    each is looked up in the directory reached so far, which must be a
    directory; [..] goes to the parent of that directory (the root is
    its own parent); a component longer than [NAME_MAX] is refused where
    it is looked up. *)
Fixpoint resolve (root : node) (cur p : list pystr) : stat_failure + list pystr :=
  match p with
  | [] => inr cur
  | s :: p' =>
      match walk root cur with
      | Some (Dir es) =>
          if bool_decide (s = dotdot) then resolve root (removelast cur) p'
          else if (NAME_MAX <? fs_length s)%nat then inl NameTooLong
          else match lookup_entry s es with
               | Some _ => resolve root (cur ++ [s]) p'
               | None => inl NoEntry
               end
      | Some (File _) => inl NotDirectory
      | None => inl NoEntry
      end
  end.

(** [os.stat]: the node a path denotes, or why it denotes none. *)
Definition os_stat (root : node) (p : list pystr) : stat_failure + node :=
  match refused p with
  | Some f => inl f
  | None =>
      match resolve root [] p with
      | inl f => inl f
      | inr cur =>
          match walk root cur with
          | Some n => inr n
          | None => inl NoEntry
          end
      end
  end.


(** The exception that a failed [os.stat] or [open] raises. *)
Definition raise_stat (f : stat_failure) : exn :=
  match f with
  | NoEntry => FileNotFoundError (lit "No such file or directory")
  | NotDirectory => OSError (lit "Not a directory")
  | NameTooLong => OSError (lit "File name too long")
  | NotEncodable => UnicodeEncodeError
  | EmbeddedNull => ValueError (lit "embedded null byte")
  end.

(** The failures that [Path.exists()] and [Path.is_file()] take for an
    answer: the errors [ENOENT] and [ENOTDIR], and every [ValueError];
    they raise the others again. *)
Definition ignored (f : stat_failure) : bool :=
  match f with
  | NoEntry | NotDirectory | NotEncodable | EmbeddedNull => true
  | NameTooLong => false
  end.

(** [Path.exists()] and [Path.is_file()]. *)
Definition path_exists (root : node) (p : list pystr) : outcome bool :=
  match os_stat root p with
  | inr _ => Returned true
  | inl f => if ignored f then Returned false else Raised (raise_stat f)
  end.

Definition is_file (root : node) (p : list pystr) : outcome bool :=
  match os_stat root p with
  | inr (File _) => Returned true
  | inr (Dir _) => Returned false
  | inl f => if ignored f then Returned false else Raised (raise_stat f)
  end.

(** [Path.read_text(encoding="utf-8")] *)
Definition read_text (root : node) (p : list pystr) : outcome pystr :=
  match os_stat root p with
  | inr (File content) =>
      match decode_utf8 (List.map Byte.to_N content) with
      | Some text => Returned (universal_newlines text)
      | None => Raised UnicodeDecodeError
      end
  | inr (Dir _) => Raised (OSError (lit "Is a directory"))
  | inl f => Raised (raise_stat f)
  end.

Section WithHost.
(** The file system of the host at the time of the call, and the
    directory [Path(__file__).resolve().parent.parent]: an absolute path
    without [..], fixed once the server is installed. *)
Variable root : node.
Variable project_dir : list pystr.

(** [Path(__file__).resolve().parent.parent / "resources"] *)
Definition resources_dir : list pystr := joinpath project_dir (lit "resources").

(** [read_resource], lines 75-81: [exists()] is asked first, and
    [is_file()] only when it answers yes; an exception of either leaves
    the function as it is. *)
Definition read_resource (name : pystr) : outcome pystr :=
  let resource_path := joinpath resources_dir name in
  match path_exists root resource_path with
  | Raised e => Raised e
  | Returned false => Raised (FileNotFoundError (lit "Resource not found: " ++ name))
  | Returned true =>
      match is_file root resource_path with
      | Raised e => Raised e
      | Returned false => Raised (FileNotFoundError (lit "Resource not found: " ++ name))
      | Returned true => read_text root resource_path
      end
  end.

(** [greeting_resource], lines 137-141. *)
Definition greeting_resource : outcome pystr :=
  let path := joinpath resources_dir (lit "greeting.txt") in
  let content := read_text root path in
  content.

End WithHost.

End Files.

(** ** The browser session *)

Module Session.

(** Handles of the browser-automation engine.  A handle is an object of
    the engine; its serial number stands for its identity. *)
Record Playwright : Type := { driver_id : nat }.

Record Browser : Type := {
  browser_id : nat;
  browser_driver : Playwright;
  headless : bool;
  launch_args : list pystr;
}.

Record BrowserContext : Type := {
  context_id : nat;
  context_browser : Browser;
  viewport : Z * Z;
  user_agent : pystr;
}.

(** The module globals of lines 22-23. *)
Record globals : Type := {
  _browser : option Browser;
  _browser_context : option BrowserContext;
}.

(** What the engine holds: the requests it has answered so far, and the
    drivers, browser processes and contexts it has created, oldest first.
    The source never closes any of them. *)
Record engine : Type := {
  answered : nat;
  drivers : list Playwright;
  browsers : list Browser;
  contexts : list BrowserContext;
}.

(** The process: the globals, the engine, and the engine's behaviour,
    which says for each request, by its rank, whether it fails and with
    which message. *)
Record world : Type := {
  mem : globals;
  eng : engine;
  faults : nat -> option pystr;
}.

Definition initial (f : nat -> option pystr) : world :=
  {| mem := {| _browser := None; _browser_context := None |};
     eng := {| answered := 0; drivers := []; browsers := []; contexts := [] |};
     faults := f |}.

Definition set_browser (b : Browser) (w : world) : world :=
  {| mem := {| _browser := Some b; _browser_context := _browser_context (mem w) |};
     eng := eng w; faults := faults w |}.

Definition set_context (c : BrowserContext) (w : world) : world :=
  {| mem := {| _browser := _browser (mem w); _browser_context := Some c |};
     eng := eng w; faults := faults w |}.

(** *** The engine's three requests *)

Definition failed (w : world) : world :=
  {| mem := mem w;
     eng := {| answered := S (answered (eng w)); drivers := drivers (eng w);
               browsers := browsers (eng w); contexts := contexts (eng w) |};
     faults := faults w |}.

(** [async_playwright().start()] *)
Definition start (w : world) : outcome Playwright * world :=
  match faults w (answered (eng w)) with
  | Some msg => (Raised (PlaywrightError msg), failed w)
  | None =>
      let pw := {| driver_id := length (drivers (eng w)) |} in
      (Returned pw,
       {| mem := mem w;
          eng := {| answered := S (answered (eng w)); drivers := drivers (eng w) ++ [pw];
                    browsers := browsers (eng w); contexts := contexts (eng w) |};
          faults := faults w |})
  end.

(** [playwright.chromium.launch(headless=..., args=...)] *)
Definition launch (pw : Playwright) (hl : bool) (args : list pystr) (w : world)
  : outcome Browser * world :=
  match faults w (answered (eng w)) with
  | Some msg => (Raised (PlaywrightError msg), failed w)
  | None =>
      let b := {| browser_id := length (browsers (eng w)); browser_driver := pw;
                  headless := hl; launch_args := args |} in
      (Returned b,
       {| mem := mem w;
          eng := {| answered := S (answered (eng w)); drivers := drivers (eng w);
                    browsers := browsers (eng w) ++ [b]; contexts := contexts (eng w) |};
          faults := faults w |})
  end.

(** [browser.new_context(viewport=..., user_agent=...)] *)
Definition new_context (b : Browser) (vp : Z * Z) (ua : pystr) (w : world)
  : outcome BrowserContext * world :=
  match faults w (answered (eng w)) with
  | Some msg => (Raised (PlaywrightError msg), failed w)
  | None =>
      let c := {| context_id := length (contexts (eng w)); context_browser := b;
                  viewport := vp; user_agent := ua |} in
      (Returned c,
       {| mem := mem w;
          eng := {| answered := S (answered (eng w)); drivers := drivers (eng w);
                    browsers := browsers (eng w); contexts := contexts (eng w) ++ [c] |};
          faults := faults w |})
  end.

(** *** Coroutines

    The body of an [async def], as a resumption: reads and writes of the
    two globals, and the three [await]s of the source, each with the rest
    of the body as its continuation.  An exception of an awaited request
    is not caught anywhere in the source, so a continuation takes the
    request's value only. *)
Inductive coro (R : Type) : Type :=
| Return (r : R)
| Raise (e : exn)
| LoadBrowser (k : option Browser -> coro R)
| StoreBrowser (b : Browser) (k : coro R)
| LoadContext (k : option BrowserContext -> coro R)
| StoreContext (c : BrowserContext) (k : coro R)
| AwaitStart (k : Playwright -> coro R)
| AwaitLaunch (pw : Playwright) (hl : bool) (args : list pystr) (k : Browser -> coro R)
| AwaitNewContext (b : Browser) (vp : Z * Z) (ua : pystr) (k : BrowserContext -> coro R).
Arguments Return {R} r.
Arguments Raise {R} e.
Arguments LoadBrowser {R} k.
Arguments StoreBrowser {R} b k.
Arguments LoadContext {R} k.
Arguments StoreContext {R} c k.
Arguments AwaitStart {R} k.
Arguments AwaitLaunch {R} pw hl args k.
Arguments AwaitNewContext {R} b vp ua k.

Fixpoint bind {A B : Type} (m : coro A) (f : A -> coro B) : coro B :=
  match m with
  | Return a => f a
  | Raise e => Raise e
  | LoadBrowser k => LoadBrowser (fun v => bind (k v) f)
  | StoreBrowser b k => StoreBrowser b (bind k f)
  | LoadContext k => LoadContext (fun v => bind (k v) f)
  | StoreContext c k => StoreContext c (bind k f)
  | AwaitStart k => AwaitStart (fun v => bind (k v) f)
  | AwaitLaunch pw hl args k => AwaitLaunch pw hl args (fun v => bind (k v) f)
  | AwaitNewContext b vp ua k => AwaitNewContext b vp ua (fun v => bind (k v) f)
  end.

#[export] Instance coro_ret : MRet coro := fun _ r => Return r.
#[export] Instance coro_bind : MBind coro := fun _ _ f m => bind m f.
#[export] Instance coro_fmap : FMap coro := fun _ _ f m => bind m (fun a => Return (f a)).

Definition load_browser : coro (option Browser) := LoadBrowser Return.
Definition store_browser (b : Browser) : coro unit := StoreBrowser b (Return tt).
Definition load_context : coro (option BrowserContext) := LoadContext Return.
Definition store_context (c : BrowserContext) : coro unit := StoreContext c (Return tt).
Definition await_start : coro Playwright := AwaitStart Return.
Definition await_launch (pw : Playwright) (hl : bool) (args : list pystr) : coro Browser :=
  AwaitLaunch pw hl args Return.
Definition await_new_context (b : Browser) (vp : Z * Z) (ua : pystr) : coro BrowserContext :=
  AwaitNewContext b vp ua Return.

Definition chromium_args : list pystr :=
  [ lit "--no-sandbox";
    lit "--disable-dev-shm-usage";
    lit "--disable-web-security";
    lit "--disable-features=VizDisplayCompositor" ].

(** [get_browser], lines 25-39.  The final [return _browser] reads the
    global in the same uninterrupted stretch as the test or the
    assignment before it, so it yields the handle just tested or just
    assigned. *)
Definition get_browser : coro Browser :=
  cached ← load_browser;
  match cached with
  | None =>
      playwright ← await_start;
      launched ← await_launch playwright true chromium_args;
      store_browser launched;;
      mret launched
  | Some b => mret b
  end.

Definition chrome_user_agent : pystr :=
  lit "Mozilla/5.0 (Windows NT 10.0; Win64; x64) AppleWebKit/537.36 (KHTML, like Gecko) Chrome/120.0.0.0 Safari/537.36".

(** [get_browser_context], lines 41-50. *)
Definition get_browser_context : coro BrowserContext :=
  cached ← load_context;
  match cached with
  | None =>
      browser ← get_browser;
      created ← await_new_context browser (1920, 1080)%Z chrome_user_agent;
      store_context created;;
      mret created
  | Some c => mret c
  end.

(** *** Execution

    [run] executes a coroutine without any other task in between: what
    [await f()] does when nothing else is scheduled. *)
Fixpoint run {R : Type} (c : coro R) (w : world) : outcome R * world :=
  match c with
  | Return r => (Returned r, w)
  | Raise e => (Raised e, w)
  | LoadBrowser k => run (k (_browser (mem w))) w
  | StoreBrowser b k => run k (set_browser b w)
  | LoadContext k => run (k (_browser_context (mem w))) w
  | StoreContext c k => run k (set_context c w)
  | AwaitStart k =>
      match start w with
      | (Returned pw, w') => run (k pw) w'
      | (Raised e, w') => (Raised e, w')
      end
  | AwaitLaunch pw hl args k =>
      match launch pw hl args w with
      | (Returned b, w') => run (k b) w'
      | (Raised e, w') => (Raised e, w')
      end
  | AwaitNewContext b vp ua k =>
      match new_context b vp ua w with
      | (Returned c, w') => run (k c) w'
      | (Raised e, w') => (Raised e, w')
      end
  end.

(** The event loop is cooperative: a task keeps the processor until it
    reaches an [await] (or its end).  [advance] is that uninterrupted
    stretch: it executes the reads and writes of the globals up to the
    next [await], where the task is left suspended. *)
Fixpoint advance {R : Type} (c : coro R) (w : world) : coro R * world :=
  match c with
  | LoadBrowser k => advance (k (_browser (mem w))) w
  | StoreBrowser b k => advance k (set_browser b w)
  | LoadContext k => advance (k (_browser_context (mem w))) w
  | StoreContext c k => advance k (set_context c w)
  | _ => (c, w)
  end.

(** One turn of a task: the request it was suspended on is answered and
    the task continues up to its next [await]; a task that has not
    started yet starts; a finished task stays as it is. *)
Definition resume {R : Type} (c : coro R) (w : world) : coro R * world :=
  match c with
  | AwaitStart k =>
      match start w with
      | (Returned pw, w') => advance (k pw) w'
      | (Raised e, w') => (Raise e, w')
      end
  | AwaitLaunch pw hl args k =>
      match launch pw hl args w with
      | (Returned b, w') => advance (k b) w'
      | (Raised e, w') => (Raise e, w')
      end
  | AwaitNewContext b vp ua k =>
      match new_context b vp ua w with
      | (Returned c, w') => advance (k c) w'
      | (Raised e, w') => (Raise e, w')
      end
  | _ => advance c w
  end.

(** *** Calls and tasks *)

Inductive call : Type :=
| CallGetBrowser
| CallGetBrowserContext.

(** What a call hands back to its caller. *)
Inductive handle : Type :=
| BrowserHandle (b : Browser)
| ContextHandle (c : BrowserContext).

Definition body (c : call) : coro handle :=
  match c with
  | CallGetBrowser => BrowserHandle <$> get_browser
  | CallGetBrowserContext => ContextHandle <$> get_browser_context
  end.

(** A task of the event loop: the call it serves and what is left of its
    body. *)
Record task : Type := {
  task_call : call;
  task_code : coro handle;
}.

Definition result_of (t : task) : option (outcome handle) :=
  match task_code t with
  | Return h => Some (Returned h)
  | Raise e => Some (Raised e)
  | _ => None
  end.

Definition suspended (t : task) : bool :=
  match task_code t with
  | AwaitStart _ | AwaitLaunch _ _ _ _ | AwaitNewContext _ _ _ _ => true
  | _ => false
  end.

Record system : Type := {
  sys_world : world;
  sys_tasks : list task;
}.

(** What the event loop does next: it accepts a new call, which becomes
    the last task and has not run yet, or it gives a turn to the task of
    a given rank. *)
Inductive event : Type :=
| Spawn (c : call)
| Turn (i : nat).

Definition step (s : system) (e : event) : system :=
  match e with
  | Spawn c =>
      {| sys_world := sys_world s;
         sys_tasks := sys_tasks s ++ [ {| task_call := c; task_code := body c |} ] |}
  | Turn i =>
      match sys_tasks s !! i with
      | Some t =>
          let (code', w') := resume (task_code t) (sys_world s) in
          {| sys_world := w';
             sys_tasks := <[ i := {| task_call := task_call t; task_code := code' |} ]> (sys_tasks s) |}
      | None => s
      end
  end.

Definition exec (s : system) (evs : list event) : system := fold_left step evs s.

Definition boot (f : nat -> option pystr) : system :=
  {| sys_world := initial f; sys_tasks := [] |}.

Definition results (s : system) : list (option (outcome handle)) :=
  List.map result_of (sys_tasks s).

(** The calls of a list made one after another, each awaited to its end
    before the next is made. *)
Fixpoint run_calls (cs : list call) (w : world) : list (outcome handle) * world :=
  match cs with
  | [] => ([], w)
  | c :: rest =>
      let (r, w1) := run (body c) w in
      let (rs, w2) := run_calls rest w1 in
      (r :: rs, w2)
  end.

(** The session is [Ready] when both globals are set. *)
Definition ready (w : world) : bool :=
  match _browser (mem w), _browser_context (mem w) with
  | Some _, Some _ => true
  | _, _ => false
  end.

(** A coroutine at rest between two turns: at an [await] or at its end. *)
Definition parked {R : Type} (c : coro R) : bool :=
  match c with
  | LoadBrowser _ | StoreBrowser _ _ | LoadContext _ | StoreContext _ _ => false
  | _ => true
  end.

(** No task is in the middle of a call: each has either not started or
    has finished. *)
Definition quiescent (s : system) : bool :=
  forallb (fun t => negb (suspended t)) (sys_tasks s).

(** The number of calls accepted by a run of the event loop. *)
Definition spawned (evs : list event) : nat :=
  length (List.filter (fun e => match e with Spawn _ => true | Turn _ => false end) evs).

(** [w'] is a later state of [w]: a global that was set is still set,
    and everything the engine held it still holds. *)
Definition later (w w' : world) : Prop :=
  (is_Some (_browser (mem w)) -> is_Some (_browser (mem w')))
  /\ (is_Some (_browser_context (mem w)) -> is_Some (_browser_context (mem w')))
  /\ drivers (eng w) `prefix_of` drivers (eng w')
  /\ browsers (eng w) `prefix_of` browsers (eng w')
  /\ contexts (eng w) `prefix_of` contexts (eng w')
  /\ faults w' = faults w.

(** A coroutine that, while [_browser] holds [b], starts no driver,
    launches no browser and does not assign [_browser]; [P] holds of
    its outcome. *)
Inductive engine_settled {R : Type} (b : Browser) (P : outcome R -> Prop) : coro R -> Prop :=
| es_return r : P (Returned r) -> engine_settled b P (Return r)
| es_raise e : P (Raised e) -> engine_settled b P (Raise e)
| es_load_browser k :
    engine_settled b P (k (Some b)) -> engine_settled b P (LoadBrowser k)
| es_load_context k :
    (forall v, engine_settled b P (k v)) -> engine_settled b P (LoadContext k)
| es_store_context c k :
    engine_settled b P k -> engine_settled b P (StoreContext c k)
| es_new_context b' vp ua k :
    (forall e, P (Raised e)) -> (forall c, engine_settled b P (k c)) ->
    engine_settled b P (AwaitNewContext b' vp ua k).

(** A coroutine that, while the globals hold [b] and [c], asks the
    engine for nothing and assigns nothing. *)
Inductive ready_settled {R : Type} (b : Browser) (c : BrowserContext) (P : outcome R -> Prop)
  : coro R -> Prop :=
| rs_return r : P (Returned r) -> ready_settled b c P (Return r)
| rs_raise e : P (Raised e) -> ready_settled b c P (Raise e)
| rs_load_browser k :
    ready_settled b c P (k (Some b)) -> ready_settled b c P (LoadBrowser k)
| rs_load_context k :
    ready_settled b c P (k (Some c)) -> ready_settled b c P (LoadContext k).

(** A bound on the browsers a coroutine may still launch. *)
Inductive launches_at_most {R : Type} : nat -> coro R -> Prop :=
| la_return n r : launches_at_most n (Return r)
| la_raise n e : launches_at_most n (Raise e)
| la_load_browser n k :
    (forall v, launches_at_most n (k v)) -> launches_at_most n (LoadBrowser k)
| la_store_browser n b k :
    launches_at_most n k -> launches_at_most n (StoreBrowser b k)
| la_load_context n k :
    (forall v, launches_at_most n (k v)) -> launches_at_most n (LoadContext k)
| la_store_context n c k :
    launches_at_most n k -> launches_at_most n (StoreContext c k)
| la_start n k :
    (forall pw, launches_at_most n (k pw)) -> launches_at_most n (AwaitStart k)
| la_launch n pw hl args k :
    (forall b, launches_at_most n (k b)) -> launches_at_most (S n) (AwaitLaunch pw hl args k)
| la_new_context n b vp ua k :
    (forall c, launches_at_most n (k c)) -> launches_at_most n (AwaitNewContext b vp ua k).

(** The outcome of a call made once the handle [b] is memoized, and of
    one made once the session is ready with [b] and [c]. *)
Definition answers_browser (b : Browser) (c : call) (o : outcome handle) : Prop :=
  match c with
  | CallGetBrowser => o = Returned (BrowserHandle b)
  | CallGetBrowserContext => True
  end.

Definition answers_ready (b : Browser) (c : BrowserContext) (cl : call) (o : outcome handle)
  : Prop :=
  match cl with
  | CallGetBrowser => o = Returned (BrowserHandle b)
  | CallGetBrowserContext => o = Returned (ContextHandle c)
  end.

(** A task of the event loop has not started, or rests where its last
    turn left it. *)
Definition well_formed (t : task) : Prop :=
  task_code t = body (task_call t) \/ parked (task_code t) = true.

(** The browsers launched so far and those the tasks may still launch
    number at most [bound]. *)
Definition launch_budget (bound : nat) (s : system) : Prop :=
  exists ns : list nat,
    Forall2 (fun n t => launches_at_most n (task_code t)) ns (sys_tasks s)
    /\ (length (browsers (eng (sys_world s))) + sum_list ns <= bound)%nat.

(** In a process that made its calls one after another, the engine holds
    the memoized browser and the memoized context and nothing else. *)
Definition singleton (w : world) : Prop :=
  browsers (eng w) = option_list (_browser (mem w))
  /\ contexts (eng w) = option_list (_browser_context (mem w)).

(** A coroutine that assigns [_browser_context] only where [_browser]
    is set; the flag says whether [_browser] is already known to be set
    where the coroutine stands. *)
Inductive context_safe {R : Type} : bool -> coro R -> Prop :=
| cs_return known r : context_safe known (Return r)
| cs_raise known e : context_safe known (Raise e)
| cs_load_browser known k :
    (known = false -> context_safe false (k None)) ->
    (forall b, context_safe true (k (Some b))) ->
    context_safe known (LoadBrowser k)
| cs_store_browser known b k :
    context_safe true k -> context_safe known (StoreBrowser b k)
| cs_load_context known k :
    (forall v, context_safe known (k v)) -> context_safe known (LoadContext k)
| cs_store_context c k :
    context_safe true k -> context_safe true (StoreContext c k)
| cs_start known k :
    (forall pw, context_safe known (k pw)) -> context_safe known (AwaitStart k)
| cs_launch known pw hl args k :
    (forall b, context_safe known (k b)) -> context_safe known (AwaitLaunch pw hl args k)
| cs_new_context known b vp ua k :
    (forall c, context_safe known (k c)) -> context_safe known (AwaitNewContext b vp ua k).

(** In the world [w] the context is set only if the browser is, and the
    coroutine [c] will keep it so. *)
Definition coherent_with {R : Type} (w : world) (c : coro R) : Prop :=
  exists known : bool,
    context_safe known c /\ (known = true -> is_Some (_browser (mem w))).

Definition coherent (s : system) : Prop :=
  (is_Some (_browser_context (mem (sys_world s))) -> is_Some (_browser (mem (sys_world s))))
  /\ Forall (fun t => coherent_with (sys_world s) (task_code t)) (sys_tasks s).

(** [n] turns of one task in a row. *)
Fixpoint turns {R : Type} (n : nat) (c : coro R) (w : world) : coro R * world :=
  match n with
  | O => (c, w)
  | S n' => let (c', w') := resume c w in turns n' c' w'
  end.

(** The requests a coroutine makes when it runs to its end. *)
Fixpoint awaits {R : Type} (c : coro R) (w : world) : nat :=
  match c with
  | Return _ | Raise _ => O
  | LoadBrowser k => awaits (k (_browser (mem w))) w
  | StoreBrowser b k => awaits k (set_browser b w)
  | LoadContext k => awaits (k (_browser_context (mem w))) w
  | StoreContext c k => awaits k (set_context c w)
  | AwaitStart k =>
      S (match start w with (Returned pw, w') => awaits (k pw) w' | (Raised _, _) => O end)
  | AwaitLaunch pw hl args k =>
      S (match launch pw hl args w with (Returned b, w') => awaits (k b) w' | (Raised _, _) => O end)
  | AwaitNewContext b vp ua k =>
      S (match new_context b vp ua w with (Returned c, w') => awaits (k c) w' | (Raised _, _) => O end)
  end.

Definition finished {R : Type} (o : outcome R) : coro R :=
  match o with Returned r => Return r | Raised e => Raise e end.

(** The task of a call that has ended with a given outcome. *)
Definition served (c : call) (o : outcome handle) : task :=
  {| task_call := c; task_code := finished o |}.

(** The run of the event loop that makes the calls of a list one after
    another: each call is accepted as task [rank], [rank + 1], ... and
    given all its turns before the next call is accepted. *)
Fixpoint serial_schedule (cs : list call) (w : world) (rank : nat) : list event :=
  match cs with
  | [] => []
  | c :: rest =>
      Spawn c :: replicate (S (awaits (body c) w)) (Turn rank)
      ++ serial_schedule rest (run (body c) w).2 (S rank)
  end.

(** A coroutine that launches browsers only headless and with the
    arguments of lines 32-37, creates contexts only with the viewport and
    the user agent of lines 47-48 and only from browsers it got from the
    engine or from [_browser], and assigns to the globals only what it
    got from the engine or read from them.  [bs] and [cs] are the
    browsers and contexts the coroutine has got hold of so far, and [P]
    holds of them and of the value it returns. *)
Inductive disciplined {R : Type} (P : list Browser -> list BrowserContext -> R -> Prop)
    (bs : list Browser) (cs : list BrowserContext) : coro R -> Prop :=
| di_return r : P bs cs r -> disciplined P bs cs (Return r)
| di_raise e : disciplined P bs cs (Raise e)
| di_load_browser k :
    disciplined P bs cs (k None) -> (forall b, disciplined P (b :: bs) cs (k (Some b))) ->
    disciplined P bs cs (LoadBrowser k)
| di_store_browser b k :
    b ∈ bs -> disciplined P bs cs k -> disciplined P bs cs (StoreBrowser b k)
| di_load_context k :
    disciplined P bs cs (k None) -> (forall c, disciplined P bs (c :: cs) (k (Some c))) ->
    disciplined P bs cs (LoadContext k)
| di_store_context c k :
    c ∈ cs -> disciplined P bs cs k -> disciplined P bs cs (StoreContext c k)
| di_start k :
    (forall pw, disciplined P bs cs (k pw)) -> disciplined P bs cs (AwaitStart k)
| di_launch pw k :
    (forall b, disciplined P (b :: bs) cs (k b)) ->
    disciplined P bs cs (AwaitLaunch pw true chromium_args k)
| di_new_context b k :
    b ∈ bs -> (forall c, disciplined P bs (c :: cs) (k c)) ->
    disciplined P bs cs (AwaitNewContext b (1920, 1080)%Z chrome_user_agent k).

(** The handle is among the browsers [bs] or the contexts [cs]. *)
Definition held (bs : list Browser) (cs : list BrowserContext) (h : handle) : Prop :=
  match h with
  | BrowserHandle b => b ∈ bs
  | ContextHandle c => c ∈ cs
  end.

(** What the engine holds is configured as the source asks, and what the
    globals hold is held by the engine. *)
Definition sound (w : world) : Prop :=
  Forall (fun b => headless b = true /\ launch_args b = chromium_args) (browsers (eng w))
  /\ Forall (fun c => viewport c = (1920, 1080)%Z /\ user_agent c = chrome_user_agent
                     /\ context_browser c ∈ browsers (eng w)) (contexts (eng w))
  /\ (forall b, _browser (mem w) = Some b -> b ∈ browsers (eng w))
  /\ (forall c, _browser_context (mem w) = Some c -> c ∈ contexts (eng w)).

(** The coroutine is disciplined, and what it has got hold of is held by
    the engine of [w]. *)
Definition tracked_in (w : world) (c : coro handle) : Prop :=
  exists bs cs, disciplined held bs cs c
    /\ bs ⊆ browsers (eng w) /\ cs ⊆ contexts (eng w).

(** The state of the event loop is sound and its tasks are tracked. *)
Definition healthy (s : system) : Prop :=
  sound (sys_world s) /\ Forall (fun t => tracked_in (sys_world s) (task_code t)) (sys_tasks s).

(** In a process that made its calls one after another, the memoized
    context was created from the memoized browser. *)
Definition context_of_browser (w : world) : Prop :=
  forall c, _browser_context (mem w) = Some c ->
    _browser (mem w) = Some (context_browser c).

(** The state of the event loop while the handle [b] stays memoized:
    the engine keeps the drivers [ds] and the browsers [bs], no task will
    touch [_browser], and the calls accepted from rank [base] on answer
    with [b]. *)
Definition engine_stable (b : Browser) (base : nat) (ds : list Playwright) (bs : list Browser)
    (s : system) : Prop :=
  _browser (mem (sys_world s)) = Some b
  /\ drivers (eng (sys_world s)) = ds
  /\ browsers (eng (sys_world s)) = bs
  /\ (base <= length (sys_tasks s))%nat
  /\ forall i t, sys_tasks s !! i = Some t ->
       engine_settled b (fun o => (base <= i)%nat -> answers_browser b (task_call t) o)
                      (task_code t).

(** The state of the event loop while the session stays ready with [b]
    and [c]: the world is [w] and stays so. *)
Definition ready_stable (b : Browser) (c : BrowserContext) (base : nat) (w : world)
    (s : system) : Prop :=
  sys_world s = w
  /\ (base <= length (sys_tasks s))%nat
  /\ forall i t, sys_tasks s !! i = Some t ->
       ready_settled b c (fun o => (base <= i)%nat -> answers_ready b c (task_call t) o)
                     (task_code t).

(** The three requests the source makes to the engine. *)
Inductive request : Type := ReqStart | ReqLaunch | ReqNewContext.

(** A bound on what the requests a coroutine may still make cost, for a
    given price of each request. *)
Inductive requests_at_most {R : Type} (cost : request -> nat) : nat -> coro R -> Prop :=
| ra_return n r : requests_at_most cost n (Return r)
| ra_raise n e : requests_at_most cost n (Raise e)
| ra_load_browser n k :
    (forall v, requests_at_most cost n (k v)) -> requests_at_most cost n (LoadBrowser k)
| ra_store_browser n b k :
    requests_at_most cost n k -> requests_at_most cost n (StoreBrowser b k)
| ra_load_context n k :
    (forall v, requests_at_most cost n (k v)) -> requests_at_most cost n (LoadContext k)
| ra_store_context n c k :
    requests_at_most cost n k -> requests_at_most cost n (StoreContext c k)
| ra_start n m k :
    (cost ReqStart + n <= m)%nat -> (forall pw, requests_at_most cost n (k pw)) ->
    requests_at_most cost m (AwaitStart k)
| ra_launch n m pw hl args k :
    (cost ReqLaunch + n <= m)%nat -> (forall b, requests_at_most cost n (k b)) ->
    requests_at_most cost m (AwaitLaunch pw hl args k)
| ra_new_context n m b vp ua k :
    (cost ReqNewContext + n <= m)%nat -> (forall c, requests_at_most cost n (k c)) ->
    requests_at_most cost m (AwaitNewContext b vp ua k).

(** What the engine holds, at the price of the requests that made it. *)
Definition holdings (cost : request -> nat) (e : engine) : nat :=
  (cost ReqStart * length (drivers e) + cost ReqLaunch * length (browsers e)
   + cost ReqNewContext * length (contexts e))%nat.

(** What a call may request. *)
Definition call_cost (cost : request -> nat) (c : call) : nat :=
  match c with
  | CallGetBrowser => (cost ReqStart + cost ReqLaunch)%nat
  | CallGetBrowserContext => (cost ReqStart + cost ReqLaunch + cost ReqNewContext)%nat
  end.

Definition spawn_cost (cost : request -> nat) (evs : list event) : nat :=
  sum_list_with (fun e => match e with Spawn c => call_cost cost c | Turn _ => O end) evs.

Definition request_budget (cost : request -> nat) (bound : nat) (s : system) : Prop :=
  exists ns : list nat,
    Forall2 (fun n t => requests_at_most cost n (task_code t)) ns (sys_tasks s)
    /\ (holdings cost (eng (sys_world s)) + sum_list ns <= bound)%nat.

(** The calls to [get_browser] and to [get_browser_context] accepted by a
    run of the event loop. *)
Definition browser_calls (evs : list event) : nat :=
  length (List.filter (fun e => match e with Spawn CallGetBrowser => true | _ => false end) evs).

Definition context_calls (evs : list event) : nat :=
  length (List.filter
            (fun e => match e with Spawn CallGetBrowserContext => true | _ => false end) evs).

End Session.

(** ** The stateless tools and prompts *)

Module Tools.
Import Session.

(** A plain [def] of the module runs inside the process like the session
    functions do, with the same globals in scope; its body is embedded in
    the same monad, and uses of it what the source uses. *)

(** [echo], lines 56-59. *)
Definition echo (text : pystr) : coro pystr := mret text.

(** [add], lines 62-65: the sum of two binary64 numbers. *)
Definition add (a b : float) : coro float := mret (a + b)%float.

(** [hello_prompt], lines 105-108; [None] is the omitted argument. *)
Definition hello_prompt (name : option pystr) : coro pystr :=
  let name := default (lit "world") name in
  mret (lit "Hello, " ++ name
        ++ lit "! I am an MCP server with browser capabilities. How can I help?").

Section WithRuntime.
(** [str(n)] of a float: the interpreter's shortest round-trip notation. *)
Variable float_str : float -> pystr.

(** [sum_prompt], lines 111-118. *)
Definition sum_prompt (numbers : list float) : coro pystr :=
  let nums := join (lit ", ") (List.map float_str numbers) in
  mret (lit "You are a calculator. Sum the following numbers and return only the number."
        ++ [10] ++ lit "Numbers: " ++ nums).
End WithRuntime.

(** A piece of the server is state-independent when what it returns does
    not depend on the state of the process it runs in, and it leaves that
    state as it found it. *)
Definition state_independent {A : Type} (c : coro A) : Prop :=
  forall w1 w2 : world,
    (run c w1).1 = (run c w2).1
    /\ is_raised (run c w1).1 = false
    /\ (run c w1).2 = w1
    /\ (resume c w1).2 = w1.

End Tools.

(** ** The operation registry *)

Module Registry.
Import Session.

(** Modelled from the spec: the registry and its dispatch are those of
    the FastMCP library, which [server.py] only calls through its
    decorators; sections 3, 4.1, 6 and 7 of the specification give the
    descriptor, [register], [dispatch] and the error envelope embedded
    below. *)
Inductive kind : Type := Tool | Prompt | Resource.

#[export] Instance kind_eq_dec : EqDecision kind.
Proof. solve_decision. Defined.

Definition kind_rank (k : kind) : nat :=
  match k with Tool => 0 | Prompt => 1 | Resource => 2 end.

Definition kind_of_rank (n : nat) : kind :=
  match n with 0%nat => Tool | 1%nat => Prompt | _ => Resource end.

#[export] Instance kind_countable : Countable kind.
Proof. apply (inj_countable' kind_rank kind_of_rank). intros []; reflexivity. Defined.

(** The values of an invocation, as the transport delivers them. *)
Inductive jvalue : Type :=
| JNull
| JBool (b : bool)
| JNumber (x : float)
| JString (s : pystr)
| JArray (xs : list jvalue).

Inductive shape : Type :=
| SBool
| SNumber
| SString
| SArray (elem : shape).

Fixpoint conforms (s : shape) (v : jvalue) {struct v} : bool :=
  match s, v with
  | SBool, JBool _ => true
  | SNumber, JNumber _ => true
  | SString, JString _ => true
  | SArray e, JArray xs => forallb (conforms e) xs
  | _, _ => false
  end.

Record parameter : Type := {
  p_name : pystr;
  p_shape : shape;
  p_required : bool;
}.

Definition arguments : Type := list (pystr * jvalue).

Fixpoint argument (name : pystr) (args : arguments) : option jvalue :=
  match args with
  | [] => None
  | (n, v) :: rest => if bool_decide (n = name) then Some v else argument name rest
  end.

(** The first declared field that the arguments get wrong, if any. *)
Fixpoint validate (ps : list parameter) (args : arguments) : option pystr :=
  match ps with
  | [] => None
  | p :: rest =>
      match argument (p_name p) args with
      | Some v => if conforms (p_shape p) v then validate rest args else Some (p_name p)
      | None => if p_required p then Some (p_name p) else validate rest args
      end
  end.

(** Modelled from the spec: the operation descriptor of section 3 (name,
    kind, handler, declared parameter shape, declared return media
    type); FastMCP keeps its own records, outside the repository. *)
Record descriptor : Type := {
  d_name : pystr;
  d_kind : kind;
  d_handler : arguments -> world -> outcome jvalue * world;
  d_params : list parameter;
  d_media : option pystr;
}.

Abbreviation registry := (gmap (kind * pystr) descriptor).

(** The error envelope handed to the transport. *)
Record failure : Type := {
  code : error_kind;
  message : pystr;
}.

Inductive reply (A : Type) : Type :=
| Result (a : A)
| Error (f : failure).
Arguments Result {A} a.
Arguments Error {A} f.

Definition key_of (d : descriptor) : kind * pystr := (d_kind d, d_name d).

(** Modelled from the spec: [register] of section 4.1, which adds a
    descriptor under its (kind, name) key and fails with
    [DuplicateNameError] when the key is taken; the library function
    behind the decorators is not in the repository. *)
Definition register (d : descriptor) (r : registry) : reply registry :=
  match r !! key_of d with
  | Some _ => Error {| code := DuplicateNameError; message := d_name d |}
  | None => Result (<[ key_of d := d ]> r)
  end.

(** The registry is populated once, at startup. *)
Fixpoint populate (ds : list descriptor) (r : registry) : reply registry :=
  match ds with
  | [] => Result r
  | d :: rest =>
      match register d r with
      | Result r' => populate rest r'
      | Error f => Error f
      end
  end.

Definition exn_message (e : exn) : pystr :=
  match e with
  | FileNotFoundError m | RuntimeError m | OSError m | ValueError m | PlaywrightError m => m
  | CalledProcessError _ _ err => err
  | UnicodeDecodeError => lit "invalid utf-8"
  | UnicodeEncodeError => lit "surrogates not allowed"
  end.

(** Modelled from the spec: [dispatch] of section 4.1, the library's
    request routing, which is not in the repository.  It looks up the
    descriptor, fails with [UnknownOperationError] when there is none,
    validates the arguments against the declared shape
    ([InvalidArgumentError] naming the field), invokes the handler, and
    returns its result or wraps its failure in the envelope, with the
    failure's message and its kind as the code. *)
Definition dispatch (r : registry) (k : kind) (name : pystr) (args : arguments) (w : world)
  : reply jvalue * world :=
  match r !! (k, name) with
  | None => (Error {| code := UnknownOperationError; message := name |}, w)
  | Some d =>
      match validate (d_params d) args with
      | Some field => (Error {| code := InvalidArgumentError; message := field |}, w)
      | None =>
          match d_handler d args w with
          | (Returned v, w') => (Result v, w')
          | (Raised e, w') =>
              (Error {| code := default HandlerError (error_kind_of e);
                        message := exn_message e |}, w')
          end
      end
  end.

(** *** The registrations of [server.py] *)

Section Server.
Variable shell : pystr -> Command.shell_run.
Variable root : Files.node.
Variable project_dir : list pystr.
Variable float_str : float -> pystr.

(** A handler that leaves the session alone. *)
Definition plain (f : arguments -> outcome jvalue) : arguments -> world -> outcome jvalue * world :=
  fun args w => (f args, w).

Definition in_session (f : arguments -> coro jvalue) : arguments -> world -> outcome jvalue * world :=
  fun args w => run (f args) w.

Definition bad_call : exn := ValueError (lit "bad arguments").

Definition string_arg (name : pystr) (args : arguments) : option pystr :=
  match argument name args with Some (JString s) => Some s | _ => None end.

Definition number_arg (name : pystr) (args : arguments) : option float :=
  match argument name args with Some (JNumber x) => Some x | _ => None end.

Definition numbers_arg (name : pystr) (args : arguments) : option (list float) :=
  match argument name args with
  | Some (JArray xs) =>
      mapM (fun v => match v with JNumber x => Some x | _ => None end) xs
  | _ => None
  end.

Definition text_result (o : outcome pystr) : outcome jvalue :=
  match o with Returned s => Returned (JString s) | Raised e => Raised e end.

Definition echo_descriptor : descriptor :=
  {| d_name := lit "echo"; d_kind := Tool;
     d_handler := in_session (fun args =>
       match string_arg (lit "text") args with
       | Some text => JString <$> Tools.echo text
       | None => Raise bad_call
       end);
     d_params := [ {| p_name := lit "text"; p_shape := SString; p_required := true |} ];
     d_media := None |}.

Definition add_descriptor : descriptor :=
  {| d_name := lit "add"; d_kind := Tool;
     d_handler := in_session (fun args =>
       match number_arg (lit "a") args, number_arg (lit "b") args with
       | Some a, Some b => JNumber <$> Tools.add a b
       | _, _ => Raise bad_call
       end);
     d_params := [ {| p_name := lit "a"; p_shape := SNumber; p_required := true |};
                   {| p_name := lit "b"; p_shape := SNumber; p_required := true |} ];
     d_media := None |}.

Definition read_resource_descriptor : descriptor :=
  {| d_name := lit "read_resource"; d_kind := Tool;
     d_handler := plain (fun args =>
       match string_arg (lit "name") args with
       | Some name => text_result (Files.read_resource root project_dir name)
       | None => Raised bad_call
       end);
     d_params := [ {| p_name := lit "name"; p_shape := SString; p_required := true |} ];
     d_media := None |}.

Definition execute_command_descriptor : descriptor :=
  {| d_name := lit "execute_command"; d_kind := Tool;
     d_handler := plain (fun args =>
       match string_arg (lit "command") args with
       | Some command => text_result (Command.execute_command shell command)
       | None => Raised bad_call
       end);
     d_params := [ {| p_name := lit "command"; p_shape := SString; p_required := true |} ];
     d_media := None |}.

Definition hello_descriptor : descriptor :=
  {| d_name := lit "hello"; d_kind := Prompt;
     d_handler := in_session (fun args => JString <$> Tools.hello_prompt (string_arg (lit "name") args));
     d_params := [ {| p_name := lit "name"; p_shape := SString; p_required := false |} ];
     d_media := None |}.

Definition sum_descriptor : descriptor :=
  {| d_name := lit "sum"; d_kind := Prompt;
     d_handler := in_session (fun args =>
       match numbers_arg (lit "numbers") args with
       | Some numbers => JString <$> Tools.sum_prompt float_str numbers
       | None => Raise bad_call
       end);
     d_params := [ {| p_name := lit "numbers"; p_shape := SArray SNumber; p_required := true |} ];
     d_media := None |}.

Definition greeting_descriptor : descriptor :=
  {| d_name := lit "res://greeting.txt"; d_kind := Resource;
     d_handler := plain (fun _ =>
       text_result (Files.read_text root
         (Files.joinpath (Files.joinpath project_dir (lit "resources")) (lit "greeting.txt"))));
     d_params := [];
     d_media := Some (lit "text/plain") |}.

(** Seven of the ten operations of [server.py], those embedded above,
    in the order of their decorators; the tool [get_time], the prompt
    [web_scrape] and the resource [res://time.json], which read the clock
    or only format text, are not embedded and so are not in this list. *)
Definition server_descriptors : list descriptor :=
  [ echo_descriptor; add_descriptor; read_resource_descriptor; execute_command_descriptor;
    hello_descriptor; sum_descriptor; greeting_descriptor ].

Definition server_registry : reply registry := populate server_descriptors ∅.

End Server.

End Registry.

(** ** Example hosts *)

Module Hosts.
Import Files.

(** An installation under [/app]: the resources directory with a
    greeting and a file with Windows line endings, and beside it a file
    that is no resource. *)
Definition greeting_bytes : list byte := [x68; x69; x0a].
Definition crlf_bytes : list byte := [x61; x0d; x0a; x62].
Definition latin1_bytes : list byte := [x63; x61; x66; xe9].
Definition secret_bytes : list byte := [x6b; x65; x79; x0a].

Definition host : node :=
  Dir [ (lit "app",
         Dir [ (lit "resources",
                Dir [ (lit "greeting.txt", File greeting_bytes);
                      (lit "crlf.txt", File crlf_bytes);
                      (lit "latin1.txt", File latin1_bytes) ]);
               (lit "secret.txt", File secret_bytes) ]) ].

Definition app_dir : list pystr := [lit "app"].


(** A name of 256 letters, one more than a component may have. *)
Definition long_name : pystr := replicate 256 97.

(** A shell that knows two commands. *)
Definition sh (command : pystr) : Command.shell_run :=
  if bool_decide (command = lit "exit 1")
  then Command.Exited {| Command.returncode := 1; Command.stdout := [];
                         Command.stderr := lit " boom " ++ [10] |}
  else Command.Exited {| Command.returncode := 0; Command.stdout := lit "ok" ++ [10];
                         Command.stderr := [] |}.

(** A shell on which two commands write the byte 255, which is no text
    in a UTF-8 locale: one to the standard error before it exits with
    status 2, the other to the standard output before it exits with
    status 0. *)
Definition sh_binary (command : pystr) : Command.shell_run :=
  if bool_decide (command = lit "printf '\377' >&2; exit 2")
  then Command.ExitedUndecodable 2
  else if bool_decide (command = lit "printf '\377'")
  then Command.ExitedUndecodable 0
  else Command.Exited {| Command.returncode := 0; Command.stdout := [];
                         Command.stderr := [] |}.

(** A shell on which [exit 1] fails with another status and other
    output, but the same complaint. *)
Definition sh_other (command : pystr) : Command.shell_run :=
  if bool_decide (command = lit "exit 1")
  then Command.Exited {| Command.returncode := 127; Command.stdout := lit "partial";
                         Command.stderr := lit "boom" |}
  else Command.Exited {| Command.returncode := 0; Command.stdout := [9; 32; 10];
                         Command.stderr := lit "warning" |}.

End Hosts.

(** ** Example runs of the event loop *)

Module Races.
Import Session.

Definition no_faults : nat -> option pystr := fun _ => None.

(** The engine whose second answer, the launch after the first driver
    start, is a failure. *)
Definition launch_fails_once : nat -> option pystr :=
  fun n => if (n =? 1)%nat then Some (lit "Executable doesn't exist") else None.

(** The engine whose third answer, the context creation after the first
    driver start and launch, is a failure. *)
Definition context_fails_once : nat -> option pystr :=
  fun n => if (n =? 2)%nat then Some (lit "Target closed") else None.

(** A process whose session is ready, as some earlier calls left it. *)
Definition warm : world :=
  {| mem := {| _browser :=
                 Some {| browser_id := 0; browser_driver := {| driver_id := 0 |};
                         headless := true; launch_args := chromium_args |};
               _browser_context := None |};
     eng := {| answered := 2; drivers := [ {| driver_id := 0 |} ];
               browsers := [ {| browser_id := 0; browser_driver := {| driver_id := 0 |};
                                headless := true; launch_args := chromium_args |} ];
               contexts := [] |};
     faults := no_faults |}.

Definition browser_nr (n : nat) : Browser :=
  {| browser_id := n; browser_driver := {| driver_id := n |};
     headless := true; launch_args := chromium_args |}.

Definition context_nr (n : nat) : BrowserContext :=
  {| context_id := n; context_browser := browser_nr n;
     viewport := (1920, 1080)%Z; user_agent := chrome_user_agent |}.

(** [asyncio.gather(get_browser(), get_browser())] on a fresh process:
    both calls are accepted, and the two tasks take their turns one
    after the other. *)
Definition two_first_calls : list event :=
  [ Spawn CallGetBrowser; Spawn CallGetBrowser;
    Turn 0; Turn 1; Turn 0; Turn 1; Turn 0; Turn 1 ]%nat.

(** Two overlapping first calls of which the first finishes first, and
    a third call made when both have finished. *)
Definition overlap_then_third : list event :=
  [ Spawn CallGetBrowser; Spawn CallGetBrowser;
    Turn 0; Turn 1; Turn 0; Turn 0; Turn 1; Turn 1;
    Spawn CallGetBrowser; Turn 2 ]%nat.

(** [asyncio.gather(get_browser_context(), get_browser_context())]: the
    first task runs to its end while the second is suspended on its
    driver start, then the second takes its turns. *)
Definition first_context_call_done : list event :=
  [ Spawn CallGetBrowserContext; Spawn CallGetBrowserContext;
    Turn 0; Turn 1; Turn 0; Turn 0; Turn 0 ]%nat.

Definition second_context_call_done : list event := [ Turn 1; Turn 1; Turn 1 ]%nat.

(** One call to the end, then two more calls. *)
Definition one_call_then_two : list event * list event :=
  ([ Spawn CallGetBrowserContext; Turn 0; Turn 0; Turn 0; Turn 0 ]%nat,
   [ Spawn CallGetBrowser; Spawn CallGetBrowserContext; Turn 2; Turn 1 ]%nat).

End Races.

(** * Properties *)

(** ** Trimming *)

Lemma lstrip_split (s : pystr) :
  exists pre, s = pre ++ lstrip s /\ forallb is_space pre = true.
Proof.
  induction s as [|c r IH]; simpl.
  - exists []. split; reflexivity.
  - destruct (is_space c) eqn:Hc.
    + destruct IH as (pre & Hr & Hpre).
      exists (c :: pre). simpl. rewrite Hc, Hpre. split; [congruence | reflexivity].
    + exists []. split; reflexivity.
Qed.

Lemma lstrip_head (s : pystr) (c : N) :
  head (lstrip s) = Some c -> is_space c = false.
Proof.
  induction s as [|d r IH]; simpl; [discriminate|].
  destruct (is_space d) eqn:Hd; [exact IH|].
  simpl. intros [= <-]. exact Hd.
Qed.

Lemma forallb_rev (f : N -> bool) (l : pystr) :
  forallb f l = true -> forallb f (rev l) = true.
Proof.
  rewrite !forallb_forall. intros H x Hx. apply H. apply in_rev. exact Hx.
Qed.

Lemma rstrip_split (s : pystr) :
  exists post, s = rstrip s ++ post /\ forallb is_space post = true.
Proof.
  unfold rstrip. destruct (lstrip_split (rev s)) as (pre & Hs & Hpre).
  exists (rev pre). split; [|apply forallb_rev; exact Hpre].
  rewrite <- rev_app_distr, <- Hs. symmetry. apply rev_involutive.
Qed.

Lemma last_rev (l : pystr) : last (rev l) = head l.
Proof.
  destruct l as [|a l]; [reflexivity|]. simpl. apply last_snoc.
Qed.

Lemma rstrip_last (s : pystr) (c : N) :
  last (rstrip s) = Some c -> is_space c = false.
Proof.
  unfold rstrip. rewrite last_rev. apply lstrip_head.
Qed.

(** Trimming on the right keeps the first character of what is left. *)
Lemma rstrip_head (s : pystr) (c : N) :
  head (rstrip s) = Some c -> head s = Some c.
Proof.
  destruct (rstrip_split s) as (post & Hs & _).
  intros H. rewrite Hs. destruct (rstrip s); [discriminate | exact H].
Qed.

Lemma strip_trimmed (s : pystr) : trimmed_from s (strip s).
Proof.
  unfold trimmed_from, strip. split; [|split].
  - destruct (lstrip_split s) as (pre & Hs & Hpre).
    destruct (rstrip_split (lstrip s)) as (post & Hu & Hpost).
    exists pre, post. split; [|split; assumption].
    rewrite <- Hu. exact Hs.
  - intros c Hc. apply (lstrip_head s). apply rstrip_head. exact Hc.
  - intros c. apply rstrip_last.
Qed.

(** ** The command executor *)

Section CommandFacts.
Import Command.
Variable shell : pystr -> shell_run.

Lemma execute_command_exited (command : pystr) (p : CompletedProcess) :
  shell command = Exited p ->
  execute_command shell command =
    if (returncode p =? 0)%Z then Returned (strip (stdout p))
    else Raised (RuntimeError (lit "Command failed with error: " ++ strip (stderr p))).
Proof.
  intros H. unfold execute_command, subprocess_run. rewrite H.
  destruct (returncode p =? 0)%Z; reflexivity.
Qed.

Lemma execute_command_not_run (command : pystr) (f : host_failure) :
  shell command = NotRun f ->
  execute_command shell command = Raised (raise_host f).
Proof.
  intros H. unfold execute_command, subprocess_run. rewrite H.
  destruct f; reflexivity.
Qed.

Lemma execute_command_undecodable (command : pystr) (status : Z) :
  shell command = ExitedUndecodable status ->
  execute_command shell command = Raised UnicodeDecodeError.
Proof.
  intros H. unfold execute_command, subprocess_run. rewrite H. reflexivity.
Qed.

(** C5, as the source has it.  [execute_command] fails with the error of
    the command executor (the [RuntimeError] of line 99,
    [CommandExecutionError] in the taxonomy) exactly when the shell exits
    with a nonzero status and what it wrote is text; the error then
    carries the captured standard error, trimmed of surrounding
    whitespace, after the fixed prefix of the source; on exit status zero
    with text captured the call returns the captured standard output,
    trimmed, and raises nothing.  When the captured output is no text in
    the locale's encoding, the call raises the decoding error whatever the
    exit status, and when the shell did not run it raises the host's
    error; neither is an error of the taxonomy. *)
Theorem execute_command_contract (command : pystr) :
  ((exists e, execute_command shell command = Raised e
              /\ error_kind_of e = Some CommandExecutionError)
   <-> (exists p, shell command = Exited p /\ returncode p <> 0%Z))
  /\ (forall p, shell command = Exited p -> returncode p <> 0%Z ->
        execute_command shell command =
          Raised (RuntimeError (lit "Command failed with error: " ++ strip (stderr p)))
        /\ trimmed_from (stderr p) (strip (stderr p)))
  /\ (forall p, shell command = Exited p -> returncode p = 0%Z ->
        execute_command shell command = Returned (strip (stdout p))
        /\ trimmed_from (stdout p) (strip (stdout p)))
  /\ (forall status, shell command = ExitedUndecodable status ->
        execute_command shell command = Raised UnicodeDecodeError
        /\ error_kind_of UnicodeDecodeError = None)
  /\ (forall f, shell command = NotRun f ->
        execute_command shell command = Raised (raise_host f)
        /\ error_kind_of (raise_host f) = None).
Proof.
  split; [split|split; [|split; [|split]]].
  - intros (e & He & Hk). destruct (shell command) as [p|status|f] eqn:Hs.
    + exists p. split; [reflexivity|]. intros Hz.
      rewrite (execute_command_exited _ _ Hs), Hz in He. discriminate.
    + rewrite (execute_command_undecodable _ _ Hs) in He.
      injection He as <-. discriminate.
    + rewrite (execute_command_not_run _ _ Hs) in He.
      injection He as <-. destruct f; discriminate.
  - intros (p & Hs & Hnz). eexists. split.
    + rewrite (execute_command_exited _ _ Hs).
      destruct (Z.eqb_spec (returncode p) 0); [contradiction | reflexivity].
    + reflexivity.
  - intros p Hs Hnz. split; [|apply strip_trimmed].
    rewrite (execute_command_exited _ _ Hs).
    destruct (Z.eqb_spec (returncode p) 0); [contradiction | reflexivity].
  - intros p Hs Hz. split; [|apply strip_trimmed].
    rewrite (execute_command_exited _ _ Hs), Hz. reflexivity.
  - intros status Hs. split; [apply (execute_command_undecodable _ _ Hs) | reflexivity].
  - intros f Hs. split; [apply (execute_command_not_run _ _ Hs) | destruct f; reflexivity].
Qed.

End CommandFacts.

Example strip_example :
  strip (lit "  no such file " ++ [10]) = lit "no such file".
Proof. reflexivity. Qed.

(** ** Text decoding *)


Section Utf8Facts.
Import Files.











End Utf8Facts.

(** ** The resource reader *)

Section FilesFacts.
Import Files.

Lemma walk_app (n : node) (p q : list pystr) :
  walk n (p ++ q) = match walk n p with Some m => walk m q | None => None end.
Proof.
  revert n. induction p as [|s p IH]; intros n; [reflexivity|].
  simpl. destruct n as [|es]; [reflexivity|].
  destruct (lookup_entry s es); [apply IH | reflexivity].
Qed.

Lemma walk_step_dir (n : node) (p : list pystr) (s : pystr) (q : list pystr) (x : node) :
  walk n (p ++ s :: q) = Some x -> exists es, walk n p = Some (Dir es).
Proof.
  rewrite walk_app. destruct (walk n p) as [[c|es]|]; [discriminate | eauto | discriminate].
Qed.




Variable root : node.
Variable project_dir : list pystr.








End FilesFacts.

(** The contract of [execute_command] on the example shell: [exit 1]
    fails with the trimmed standard error, any other command returns the
    trimmed standard output. *)
Lemma execute_command_contract_witness :
  Command.execute_command Hosts.sh (lit "exit 1")
    = Raised (RuntimeError (lit "Command failed with error: boom"))
  /\ Command.execute_command Hosts.sh (lit "true") = Returned (lit "ok").
Proof.
  split.
  - exact (proj1 (proj1 (proj2 (execute_command_contract Hosts.sh (lit "exit 1")))
                    _ eq_refl ltac:(discriminate))).
  - exact (proj1 (proj1 (proj2 (proj2 (execute_command_contract Hosts.sh (lit "true"))))
                    _ eq_refl eq_refl)).
Defined.

(** C5 as the specification words it does not hold: a command that
    writes a byte that is no text to its standard error and exits with
    status 2 has a nonzero exit status, yet the call fails with the
    decoding error, which is no [CommandExecutionError]; and a command
    that writes such a byte to its standard output and exits with status
    0 does not return. *)
Lemma execute_command_undecodable_exit :
  Command.exit_status (Hosts.sh_binary (lit "printf '\377' >&2; exit 2")) = Some 2%Z
  /\ Command.execute_command Hosts.sh_binary (lit "printf '\377' >&2; exit 2")
     = Raised UnicodeDecodeError
  /\ error_kind_of UnicodeDecodeError <> Some CommandExecutionError
  /\ Command.exit_status (Hosts.sh_binary (lit "printf '\377'")) = Some 0%Z
  /\ Command.execute_command Hosts.sh_binary (lit "printf '\377'")
     = Raised UnicodeDecodeError.
Proof.
  split; [reflexivity|]. split; [reflexivity|]. split; [discriminate|].
  split; reflexivity.
Qed.





(** ** The browser session *)

Section SessionFacts.
Import Session.

(** *** What never happens: a global is never cleared, the engine never
    lets go of anything *)

Lemma later_refl (w : world) : later w w.
Proof. unfold later. repeat split; auto. Qed.

Lemma later_trans (w1 w2 w3 : world) : later w1 w2 -> later w2 w3 -> later w1 w3.
Proof.
  intros (A1 & A2 & A3 & A4 & A5 & A6) (B1 & B2 & B3 & B4 & B5 & B6).
  unfold later. repeat split; auto; try (etrans; eassumption).
Qed.

Lemma later_set_browser (b : Browser) (w : world) : later w (set_browser b w).
Proof. unfold later. simpl. repeat split; eauto. Qed.

Lemma later_set_context (c : BrowserContext) (w : world) : later w (set_context c w).
Proof. unfold later. simpl. repeat split; eauto. Qed.

Lemma later_start (w : world) : later w (start w).2.
Proof.
  unfold start. destruct (faults w _); unfold later; simpl; repeat split; auto.
  apply prefix_app_r. reflexivity.
Qed.

Lemma later_launch pw hl args (w : world) : later w (launch pw hl args w).2.
Proof.
  unfold launch. destruct (faults w _); unfold later; simpl; repeat split; auto.
  apply prefix_app_r. reflexivity.
Qed.

Lemma later_new_context b vp ua (w : world) : later w (new_context b vp ua w).2.
Proof.
  unfold new_context. destruct (faults w _); unfold later; simpl; repeat split; auto.
  apply prefix_app_r. reflexivity.
Qed.

Lemma later_advance {R : Type} (c : coro R) :
  forall w, later w (advance c w).2.
Proof.
  induction c as [r|e|k IH|b k IH|k IH|c k IH|k IH|pw hl args k IH|b vp ua k IH];
    intros w; simpl; try apply later_refl.
  - apply IH.
  - eapply later_trans; [apply later_set_browser | apply IH].
  - apply IH.
  - eapply later_trans; [apply later_set_context | apply IH].
Qed.

Lemma later_resume {R : Type} (c : coro R) (w : world) : later w (resume c w).2.
Proof.
  destruct c as [r|e|k|b k|k|c k|k|pw hl args k|b vp ua k]; simpl;
    try apply later_refl; try apply (later_advance (LoadBrowser k));
    try apply (later_advance (StoreBrowser b k)); try apply (later_advance (LoadContext k));
    try apply (later_advance (StoreContext c k)).
  - pose proof (later_start w) as H. destruct (start w) as [[pw|e] w']; simpl in H.
    + eapply later_trans; [exact H | apply later_advance].
    + exact H.
  - pose proof (later_launch pw hl args w) as H.
    destruct (launch pw hl args w) as [[b|e] w']; simpl in H.
    + eapply later_trans; [exact H | apply later_advance].
    + exact H.
  - pose proof (later_new_context b vp ua w) as H.
    destruct (new_context b vp ua w) as [[c|e] w']; simpl in H.
    + eapply later_trans; [exact H | apply later_advance].
    + exact H.
Qed.

Lemma later_step (s : system) (e : event) : later (sys_world s) (sys_world (step s e)).
Proof.
  destruct e as [c|i]; simpl; [apply later_refl|].
  destruct (sys_tasks s !! i) as [t|]; [|apply later_refl].
  pose proof (later_resume (task_code t) (sys_world s)) as H.
  destruct (resume (task_code t) (sys_world s)) as [code' w']. exact H.
Qed.

Lemma later_exec (evs : list event) :
  forall s, later (sys_world s) (sys_world (exec s evs)).
Proof.
  induction evs as [|e evs IH]; intros s; simpl; [apply later_refl|].
  eapply later_trans; [apply later_step | apply IH].
Qed.

(** *** Tasks between turns *)

Lemma advance_parked {R : Type} (c : coro R) : forall w, parked (advance c w).1 = true.
Proof.
  induction c as [r|e|k IH|b k IH|k IH|c k IH|k IH|pw hl args k IH|b vp ua k IH];
    intros w; simpl; auto.
Qed.

Lemma resume_parked {R : Type} (c : coro R) (w : world) : parked (resume c w).1 = true.
Proof.
  destruct c as [r|e|k|b k|k|c k|k|pw hl args k|b vp ua k]; simpl; auto;
    try apply (advance_parked (k _)); try apply (advance_parked k).
  - destruct (start w) as [[pw|e] w']; [apply advance_parked | reflexivity].
  - destruct (launch pw hl args w) as [[b|e] w']; [apply advance_parked | reflexivity].
  - destruct (new_context b vp ua w) as [[c|e] w']; [apply advance_parked | reflexivity].
Qed.

Lemma well_formed_step (s : system) (e : event) :
  Forall well_formed (sys_tasks s) -> Forall well_formed (sys_tasks (step s e)).
Proof.
  intros H. destruct e as [c|i]; simpl.
  - apply Forall_app. split; [exact H|]. constructor; [|constructor]. left. reflexivity.
  - destruct (sys_tasks s !! i) as [t|] eqn:Ht; [|exact H].
    pose proof (resume_parked (task_code t) (sys_world s)) as Hp.
    destruct (resume (task_code t) (sys_world s)) as [code' w']. simpl.
    apply Forall_insert; [exact H|]. right. exact Hp.
Qed.

Lemma well_formed_exec (evs : list event) :
  forall s, Forall well_formed (sys_tasks s) -> Forall well_formed (sys_tasks (exec s evs)).
Proof.
  induction evs as [|e evs IH]; intros s H; simpl; [exact H|].
  apply IH, well_formed_step, H.
Qed.

Lemma well_formed_boot (f : nat -> option pystr) (evs : list event) :
  Forall well_formed (sys_tasks (exec (boot f) evs)).
Proof. apply well_formed_exec. constructor. Qed.

(** *** Calls made once the handle is memoized *)

Lemma engine_settled_weaken {R : Type} (b : Browser) (P Q : outcome R -> Prop) (c : coro R) :
  (forall r, P r -> Q r) -> engine_settled b P c -> engine_settled b Q c.
Proof.
  intros HPQ H. induction H; econstructor; eauto.
Qed.

Lemma ready_settled_weaken {R : Type} b c (P Q : outcome R -> Prop) (k : coro R) :
  (forall r, P r -> Q r) -> ready_settled b c P k -> ready_settled b c Q k.
Proof.
  intros HPQ H. induction H; econstructor; eauto.
Qed.

Lemma engine_settled_body (b : Browser) (c : call) :
  engine_settled b (answers_browser b c) (body c).
Proof.
  destruct c; cbn.
  - apply es_load_browser. cbn. apply es_return. reflexivity.
  - apply es_load_context. intros [ctx|]; cbn.
    + apply es_return. exact I.
    + apply es_load_browser. cbn. apply es_new_context; [intros e; exact I|].
      intros ctx. cbn. apply es_store_context. apply es_return. exact I.
Qed.

Lemma ready_settled_body (b : Browser) (c : BrowserContext) (cl : call) :
  ready_settled b c (answers_ready b c cl) (body cl).
Proof.
  destruct cl; cbn.
  - apply rs_load_browser. cbn. apply rs_return. reflexivity.
  - apply rs_load_context. cbn. apply rs_return. reflexivity.
Qed.

Lemma engine_settled_advance {R : Type} (b : Browser) (P : outcome R -> Prop) (c : coro R) :
  engine_settled b P c ->
  forall w, _browser (mem w) = Some b ->
    engine_settled b P (advance c w).1
    /\ _browser (mem (advance c w).2) = Some b
    /\ eng (advance c w).2 = eng w.
Proof.
  intros H. induction H as [r Hr|e Hr|k H IH|k H IH|c k H IH|b' vp ua k He H IH];
    intros w Hw; simpl.
  - split; [constructor; exact Hr | auto].
  - split; [constructor; exact Hr | auto].
  - rewrite Hw. apply IH. exact Hw.
  - apply IH. exact Hw.
  - destruct (IH (set_context c w) Hw) as (A & B & C). auto.
  - split; [constructor; assumption | auto].
Qed.

Lemma engine_settled_resume {R : Type} (b : Browser) (P : outcome R -> Prop) (c : coro R)
    (w : world) :
  engine_settled b P c -> _browser (mem w) = Some b ->
  engine_settled b P (resume c w).1
  /\ _browser (mem (resume c w).2) = Some b
  /\ drivers (eng (resume c w).2) = drivers (eng w)
  /\ browsers (eng (resume c w).2) = browsers (eng w).
Proof.
  intros H Hw. destruct H as [r Hr|e Hr|k H|k H|c k H|b' vp ua k HP H].
  - simpl. split; [constructor; exact Hr | auto].
  - simpl. split; [constructor; exact Hr | auto].
  - destruct (engine_settled_advance b P _ (es_load_browser b P k H) w Hw) as (A & B & C).
    change (resume (LoadBrowser k) w) with (advance (LoadBrowser k) w).
    rewrite C. auto.
  - destruct (engine_settled_advance b P _ (es_load_context b P k H) w Hw) as (A & B & C).
    change (resume (LoadContext k) w) with (advance (LoadContext k) w).
    rewrite C. auto.
  - destruct (engine_settled_advance b P _ (es_store_context b P c k H) w Hw) as (A & B & C).
    change (resume (StoreContext c k) w) with (advance (StoreContext c k) w).
    rewrite C. auto.
  - simpl. unfold new_context. destruct (faults w (answered (eng w))) as [msg|].
    + simpl. split; [constructor; apply HP | auto].
    + match goal with |- context [advance ?c ?w'] =>
        destruct (engine_settled_advance b P c (H _) w' Hw) as (A & B & C) end.
      rewrite C. simpl. auto.
Qed.

Lemma ready_settled_resume {R : Type} b c (P : outcome R -> Prop) (k : coro R) (w : world) :
  ready_settled b c P k ->
  _browser (mem w) = Some b -> _browser_context (mem w) = Some c ->
  ready_settled b c P (resume k w).1 /\ (resume k w).2 = w.
Proof.
  intros H Hb Hc. induction H as [r Hr|e Hr|k H IH|k H IH].
  - simpl. split; [constructor; exact Hr | reflexivity].
  - simpl. split; [constructor; exact Hr | reflexivity].
  - change (resume (LoadBrowser k) w) with (advance (k (_browser (mem w))) w).
    rewrite Hb. destruct H; exact IH.
  - change (resume (LoadContext k) w) with (advance (k (_browser_context (mem w))) w).
    rewrite Hc. destruct H; exact IH.
Qed.

(** *** The event loop while the handle stays memoized *)

Lemma lookup_snoc_inv {A : Type} (l : list A) (x y : A) (i : nat) :
  (l ++ [x]) !! i = Some y -> l !! i = Some y \/ (i = length l /\ y = x).
Proof.
  intros H. apply lookup_app_Some in H. destruct H as [H | [Hle H]]; [left; exact H|].
  right. destruct (i - length l)%nat as [|n] eqn:Hn; simpl in H; [|discriminate].
  injection H as <-. split; [lia | reflexivity].
Qed.

Lemma engine_stable_step b base ds bs (s : system) (e : event) :
  engine_stable b base ds bs s -> engine_stable b base ds bs (step s e).
Proof.
  intros (Hb & Hd & Hbs & Hlen & Htasks). destruct e as [c|i]; simpl.
  - unfold engine_stable. simpl. repeat split; auto.
    + rewrite length_app. lia.
    + intros j t Hj. apply lookup_snoc_inv in Hj. destruct Hj as [Hj | [-> ->]].
      * apply Htasks. exact Hj.
      * simpl. eapply engine_settled_weaken; [|apply engine_settled_body]. auto.
  - destruct (sys_tasks s !! i) as [t|] eqn:Ht; [|repeat split; auto].
    pose proof (engine_settled_resume b _ _ (sys_world s) (Htasks i t Ht) Hb) as (A & B & C & D).
    destruct (resume (task_code t) (sys_world s)) as [code' w']. simpl in *.
    unfold engine_stable. simpl. repeat split; try congruence.
    + rewrite length_insert. exact Hlen.
    + intros j t' Hj. apply list_lookup_insert_Some in Hj.
      destruct Hj as [(-> & <- & _) | (_ & Hj)]; [exact A | apply Htasks; exact Hj].
Qed.

Lemma engine_stable_exec b base ds bs (evs : list event) :
  forall s, engine_stable b base ds bs s -> engine_stable b base ds bs (exec s evs).
Proof.
  induction evs as [|e evs IH]; intros s H; simpl; [exact H|].
  apply IH, engine_stable_step, H.
Qed.

Lemma ready_stable_step b c base w (s : system) (e : event) :
  _browser (mem w) = Some b -> _browser_context (mem w) = Some c ->
  ready_stable b c base w s -> ready_stable b c base w (step s e).
Proof.
  intros Hb Hc (Hw & Hlen & Htasks). destruct e as [cl|i]; simpl.
  - unfold ready_stable. simpl. repeat split; auto.
    + rewrite length_app. lia.
    + intros j t Hj. apply lookup_snoc_inv in Hj. destruct Hj as [Hj | [-> ->]].
      * apply Htasks. exact Hj.
      * simpl. eapply ready_settled_weaken; [|apply ready_settled_body]. auto.
  - destruct (sys_tasks s !! i) as [t|] eqn:Ht; [|repeat split; auto].
    rewrite Hw.
    pose proof (ready_settled_resume b c _ _ w (Htasks i t Ht) Hb Hc) as (A & B).
    destruct (resume (task_code t) w) as [code' w']. simpl in *.
    unfold ready_stable. simpl. repeat split; auto.
    + rewrite length_insert. exact Hlen.
    + intros j t' Hj. apply list_lookup_insert_Some in Hj.
      destruct Hj as [(-> & <- & _) | (_ & Hj)]; [exact A | apply Htasks; exact Hj].
Qed.

Lemma ready_stable_exec b c base w (evs : list event) :
  _browser (mem w) = Some b -> _browser_context (mem w) = Some c ->
  forall s, ready_stable b c base w s -> ready_stable b c base w (exec s evs).
Proof.
  intros Hb Hc. induction evs as [|e evs IH]; intros s H; simpl; [exact H|].
  apply IH, ready_stable_step; assumption.
Qed.

(** A task that is not suspended has not started or has finished. *)
Lemma idle_task (t : task) :
  well_formed t -> suspended t = false ->
  task_code t = body (task_call t) \/ exists o, result_of t = Some o.
Proof.
  intros [H | H] Hs; [left; exact H | right].
  unfold suspended in Hs. unfold result_of.
  destruct (task_code t); try discriminate; eauto.
Qed.

Lemma quiescent_lookup (s : system) (i : nat) (t : task) :
  quiescent s = true -> sys_tasks s !! i = Some t -> suspended t = false.
Proof.
  unfold quiescent. rewrite forallb_forall. intros H Ht.
  apply negb_true_iff, H, list_elem_of_In, list_elem_of_lookup. eauto.
Qed.

Lemma engine_stable_quiescent (f : nat -> option pystr) (evs0 : list event) (b : Browser) :
  let s := exec (boot f) evs0 in
  quiescent s = true -> _browser (mem (sys_world s)) = Some b ->
  engine_stable b (length (sys_tasks s)) (drivers (eng (sys_world s)))
                (browsers (eng (sys_world s))) s.
Proof.
  intros s Hq Hb. unfold engine_stable. repeat split; auto.
  intros i t Ht. pose proof (lookup_lt_Some _ _ _ Ht) as Hlt.
  assert (Hwf : well_formed t).
  { pose proof (well_formed_boot f evs0) as Hall. rewrite Forall_forall in Hall.
    apply Hall, list_elem_of_lookup. eauto. }
  destruct (idle_task t Hwf (quiescent_lookup s i t Hq Ht)) as [-> | [o Ho]].
  - eapply engine_settled_weaken; [|apply engine_settled_body]. auto.
  - unfold result_of in Ho. destruct (task_code t); try discriminate;
      constructor; intros Hle; fold s in Hlt; lia.
Qed.

Lemma ready_stable_quiescent (f : nat -> option pystr) (evs0 : list event) b c :
  let s := exec (boot f) evs0 in
  quiescent s = true ->
  _browser (mem (sys_world s)) = Some b -> _browser_context (mem (sys_world s)) = Some c ->
  ready_stable b c (length (sys_tasks s)) (sys_world s) s.
Proof.
  intros s Hq Hb Hc. unfold ready_stable. repeat split; auto.
  intros i t Ht. pose proof (lookup_lt_Some _ _ _ Ht) as Hlt.
  assert (Hwf : well_formed t).
  { pose proof (well_formed_boot f evs0) as Hall. rewrite Forall_forall in Hall.
    apply Hall, list_elem_of_lookup. eauto. }
  destruct (idle_task t Hwf (quiescent_lookup s i t Hq Ht)) as [-> | [o Ho]].
  - eapply ready_settled_weaken; [|apply ready_settled_body]. auto.
  - unfold result_of in Ho. destruct (task_code t); try discriminate;
      constructor; intros Hle; fold s in Hlt; lia.
Qed.

Lemma engine_settled_result {R : Type} b (P : outcome R -> Prop) (c : coro R) (o : outcome R) :
  engine_settled b P c ->
  match c with Return r => Some (Returned r) | Raise e => Some (Raised e) | _ => None end = Some o ->
  P o.
Proof. intros H Ho. destruct H; try discriminate; injection Ho as <-; assumption. Qed.

Lemma ready_settled_result {R : Type} b c (P : outcome R -> Prop) (k : coro R) (o : outcome R) :
  ready_settled b c P k ->
  match k with Return r => Some (Returned r) | Raise e => Some (Raised e) | _ => None end = Some o ->
  P o.
Proof. intros H Ho. destruct H; try discriminate; injection Ho as <-; assumption. Qed.

(** *** The context is set only where the browser is *)

Lemma context_safe_body (c : call) : context_safe false (body c).
Proof.
  destruct c; cbn.
  - constructor; [intros _; cbn | intros b; cbn]; repeat (constructor; intros).
  - constructor. intros [ctx|]; cbn; [constructor|].
    constructor; [intros _; cbn | intros b; cbn]; repeat (constructor; intros).
Qed.

Lemma coherent_advance {R : Type} (known : bool) (c : coro R) :
  context_safe known c ->
  forall w,
    (known = true -> is_Some (_browser (mem w))) ->
    (is_Some (_browser_context (mem w)) -> is_Some (_browser (mem w))) ->
    coherent_with (advance c w).2 (advance c w).1
    /\ (is_Some (_browser_context (mem (advance c w).2))
        -> is_Some (_browser (mem (advance c w).2))).
Proof.
  intros H.
  induction H as [known r|known e|known k H1 IH1 H2 IH2|known b k H IH|known k H IH|c k H IH
                 |known k H IH|known pw hl args k H IH|known b vp ua k H IH];
    intros w Hknown Hmem; simpl.
  - split; [exists known; split; [constructor | exact Hknown] | exact Hmem].
  - split; [exists known; split; [constructor | exact Hknown] | exact Hmem].
  - destruct (_browser (mem w)) as [b|] eqn:Hb.
    + apply IH2; intros; rewrite Hb; eauto.
    + destruct known.
      * destruct (Hknown eq_refl) as [b Hb']. discriminate Hb'.
      * apply IH1; [reflexivity | discriminate | rewrite Hb; exact Hmem].
  - apply IH; simpl; eauto.
  - apply IH; assumption.
  - apply IH; simpl; [exact Hknown | intros _; apply Hknown; reflexivity].
  - split; [exists known; split; [constructor; exact H | exact Hknown] | exact Hmem].
  - split; [exists known; split; [constructor; exact H | exact Hknown] | exact Hmem].
  - split; [exists known; split; [constructor; exact H | exact Hknown] | exact Hmem].
Qed.

Lemma coherent_resume {R : Type} (c : coro R) (w : world) :
  coherent_with w c ->
  (is_Some (_browser_context (mem w)) -> is_Some (_browser (mem w))) ->
  coherent_with (resume c w).2 (resume c w).1
  /\ (is_Some (_browser_context (mem (resume c w).2))
      -> is_Some (_browser (mem (resume c w).2))).
Proof.
  intros (known & H & Hknown) Hmem.
  destruct H as [known r|known e|known k H1 H2|known b k H|known k H|ctx k H
                |known k H|known pw hl args k H|known b vp ua k H].
  - simpl. split; [exists known; split; [constructor | exact Hknown] | exact Hmem].
  - simpl. split; [exists known; split; [constructor | exact Hknown] | exact Hmem].
  - exact (coherent_advance known _ (cs_load_browser known k H1 H2) w Hknown Hmem).
  - exact (coherent_advance known _ (cs_store_browser known b k H) w Hknown Hmem).
  - exact (coherent_advance known _ (cs_load_context known k H) w Hknown Hmem).
  - exact (coherent_advance true _ (cs_store_context ctx k H) w Hknown Hmem).
  - simpl. unfold start. destruct (faults w (answered (eng w))) as [msg|].
    + simpl. split; [exists known; split; [constructor | exact Hknown] | exact Hmem].
    + apply (coherent_advance known _ (H _)); simpl; assumption.
  - simpl. unfold launch. destruct (faults w (answered (eng w))) as [msg|].
    + simpl. split; [exists known; split; [constructor | exact Hknown] | exact Hmem].
    + apply (coherent_advance known _ (H _)); simpl; assumption.
  - simpl. unfold new_context. destruct (faults w (answered (eng w))) as [msg|].
    + simpl. split; [exists known; split; [constructor | exact Hknown] | exact Hmem].
    + apply (coherent_advance known _ (H _)); simpl; assumption.
Qed.

Lemma coherent_with_later {R : Type} (w w' : world) (c : coro R) :
  later w w' -> coherent_with w c -> coherent_with w' c.
Proof.
  intros (Hb & _) (known & H & Hknown). exists known. split; [exact H | auto].
Qed.

Lemma coherent_step (s : system) (e : event) : coherent s -> coherent (step s e).
Proof.
  intros [Hmem Htasks]. destruct e as [c|i]; simpl.
  - split; [exact Hmem|]. simpl. apply Forall_app. split; [exact Htasks|].
    constructor; [|constructor]. exists false. split; [apply context_safe_body | discriminate].
  - destruct (sys_tasks s !! i) as [t|] eqn:Ht; [|split; assumption].
    assert (Ht' : coherent_with (sys_world s) (task_code t)).
    { rewrite Forall_forall in Htasks. apply Htasks, list_elem_of_lookup. eauto. }
    pose proof (coherent_resume _ _ Ht' Hmem) as [A B].
    pose proof (later_resume (task_code t) (sys_world s)) as Hlater.
    destruct (resume (task_code t) (sys_world s)) as [code' w']. simpl in *.
    split; [exact B|]. simpl. apply Forall_insert; [|exact A].
    eapply Forall_impl; [exact Htasks|]. intros t0. apply coherent_with_later. exact Hlater.
Qed.

Lemma coherent_exec (evs : list event) : forall s, coherent s -> coherent (exec s evs).
Proof.
  induction evs as [|e evs IH]; intros s H; simpl; [exact H|].
  apply IH, coherent_step, H.
Qed.

(** In every state of the event loop, a memoized context comes with a
    memoized browser. *)
Lemma context_implies_browser (f : nat -> option pystr) (evs : list event) :
  is_Some (_browser_context (mem (sys_world (exec (boot f) evs)))) ->
  is_Some (_browser (mem (sys_world (exec (boot f) evs)))).
Proof.
  apply (coherent_exec evs (boot f)). split; [|constructor].
  simpl. intros [c Hc]. discriminate Hc.
Qed.

(** *** Calls made one after another, as runs of the event loop *)

Lemma turns_advance {R : Type} (c : coro R) :
  forall w,
    turns (awaits c w) (advance c w).1 (advance c w).2 = (finished (run c w).1, (run c w).2).
Proof.
  induction c as [r|e|k IH|b k IH|k IH|c k IH|k IH|pw hl args k IH|b vp ua k IH];
    intros w; try reflexivity; cbn [awaits advance run]; try apply IH.
  - cbn [turns resume fst snd]. destruct (start w) as [[pw|e] w']; [|reflexivity].
    specialize (IH pw w'). destruct (advance (k pw) w') as [c' w'']. exact IH.
  - cbn [turns resume fst snd]. destruct (launch pw hl args w) as [[b|e] w']; [|reflexivity].
    specialize (IH b w'). destruct (advance (k b) w') as [c' w'']. exact IH.
  - cbn [turns resume fst snd]. destruct (new_context b vp ua w) as [[c|e] w']; [|reflexivity].
    specialize (IH c w'). destruct (advance (k c) w') as [c' w'']. exact IH.
Qed.

(** A call given all its turns ends as [run] says. *)
Lemma turns_body (c : call) (w : world) :
  turns (S (awaits (body c) w)) (body c) w = (finished (run (body c) w).1, (run (body c) w).2).
Proof.
  pose proof (turns_advance (body c) w) as H.
  cbn [turns]. replace (resume (body c) w) with (advance (body c) w) by (destruct c; reflexivity).
  destruct (advance (body c) w) as [c' w']. exact H.
Qed.

Lemma exec_turns (n : nat) :
  forall (ts : list task) (cl : call) (code : coro handle) (w : world),
    exec {| sys_world := w; sys_tasks := ts ++ [ {| task_call := cl; task_code := code |} ] |}
         (replicate n (Turn (length ts)))
    = {| sys_world := (turns n code w).2;
         sys_tasks := ts ++ [ {| task_call := cl; task_code := (turns n code w).1 |} ] |}.
Proof.
  induction n as [|n IH]; intros ts cl code w; [reflexivity|].
  cbn [replicate exec fold_left step sys_tasks sys_world turns].
  rewrite list_lookup_middle by reflexivity. cbn [task_code task_call].
  destruct (resume code w) as [code' w'].
  rewrite insert_app_r_alt by lia. rewrite Nat.sub_diag. cbn [insert list_insert].
  apply (IH ts cl code' w').
Qed.

Lemma exec_app (s : system) (evs1 evs2 : list event) :
  exec s (evs1 ++ evs2) = exec (exec s evs1) evs2.
Proof. apply fold_left_app. Qed.

(** The serial schedule is the event loop's way of making the calls one
    after another: it ends in the world that [run_calls] computes, with
    one finished task per call, holding the outcome that [run_calls]
    gives for it. *)
Lemma exec_serial_schedule (cs : list call) :
  forall (ts : list task) (w : world),
    exec {| sys_world := w; sys_tasks := ts |} (serial_schedule cs w (length ts))
    = {| sys_world := (run_calls cs w).2;
         sys_tasks := ts ++ zip_with served cs (run_calls cs w).1 |}.
Proof.
  induction cs as [|c cs IH]; intros ts w.
  - simpl. rewrite app_nil_r. reflexivity.
  - cbn [serial_schedule run_calls]. rewrite (app_comm_cons _ _ (Spawn c)), exec_app.
    cbn [exec fold_left step sys_tasks sys_world].
    change (fold_left step ?evs ?s) with (exec s evs).
    rewrite exec_turns, turns_body. cbn [fst snd].
    destruct (run (body c) w) as [r w1]. cbn [fst snd].
    specialize (IH (ts ++ [served c r]) w1). rewrite length_app, Nat.add_1_r in IH.
    unfold served at 1 in IH. rewrite IH.
    destruct (run_calls cs w1) as [rs w2]. cbn [fst snd zip_with].
    rewrite <- app_assoc. reflexivity.
Qed.

(** A call made while its result is memoized finishes within its first
    turn, asks the engine for nothing and leaves the process as it is. *)
Lemma memoized_call_returns (w : world) :
  (forall b, _browser (mem w) = Some b ->
     resume (body CallGetBrowser) w = (Return (BrowserHandle b), w)
     /\ run (body CallGetBrowser) w = (Returned (BrowserHandle b), w))
  /\ (forall c, _browser_context (mem w) = Some c ->
     resume (body CallGetBrowserContext) w = (Return (ContextHandle c), w)
     /\ run (body CallGetBrowserContext) w = (Returned (ContextHandle c), w)).
Proof.
  split; intros x Hx; cbn; rewrite Hx; split; reflexivity.
Qed.

(** C3, as the source has it.  A call to [get_browser] or
    [get_browser_context] made while its result is memoized finishes at
    once with the memoized reference and performs no launch and no
    context creation.  When, in addition, no earlier call is still
    suspended in its initialization, the memoized reference cannot
    change any more: from a state of the event loop in which no task is
    suspended and the handle is set, whatever calls follow and however
    their turns interleave, the engine launches nothing more and every
    call to [get_browser] accepted from then on returns that handle; and
    when the context is set, the handle is set too, the process does not
    change at all any more, and every call to [get_browser_context]
    accepted from then on returns that context. *)
Theorem memoized_reference_stable (f : nat -> option pystr) (evs0 evs : list event) :
  let s := exec (boot f) evs0 in
  let s' := exec s evs in
  quiescent s = true ->
  (forall b, _browser (mem (sys_world s)) = Some b ->
     resume (body CallGetBrowser) (sys_world s) = (Return (BrowserHandle b), sys_world s)
     /\ _browser (mem (sys_world s')) = Some b
     /\ drivers (eng (sys_world s')) = drivers (eng (sys_world s))
     /\ browsers (eng (sys_world s')) = browsers (eng (sys_world s))
     /\ forall i t o, (length (sys_tasks s) <= i)%nat -> sys_tasks s' !! i = Some t ->
          task_call t = CallGetBrowser -> result_of t = Some o ->
          o = Returned (BrowserHandle b))
  /\ (forall c, _browser_context (mem (sys_world s)) = Some c ->
     resume (body CallGetBrowserContext) (sys_world s) = (Return (ContextHandle c), sys_world s)
     /\ is_Some (_browser (mem (sys_world s)))
     /\ sys_world s' = sys_world s
     /\ forall i t o, (length (sys_tasks s) <= i)%nat -> sys_tasks s' !! i = Some t ->
          task_call t = CallGetBrowserContext -> result_of t = Some o ->
          o = Returned (ContextHandle c)).
Proof.
  intros s s' Hq. split.
  - intros b Hb.
    pose proof (engine_stable_exec _ _ _ _ evs s (engine_stable_quiescent f evs0 b Hq Hb))
      as (A & B & C & D & E).
    split; [apply memoized_call_returns; exact Hb|].
    repeat split; auto.
    intros i t o Hi Ht Hcall Ho.
    pose proof (engine_settled_result _ _ _ o (E i t Ht) Ho Hi) as H.
    rewrite Hcall in H. exact H.
  - intros c Hc.
    destruct (context_implies_browser f evs0) as [b Hb]; [fold s; rewrite Hc; eauto|].
    fold s in Hb.
    pose proof (ready_stable_exec b c _ _ evs Hb Hc s (ready_stable_quiescent f evs0 b c Hq Hb Hc))
      as (A & B & C).
    split; [apply memoized_call_returns; exact Hc|].
    split; [rewrite Hb; eauto|].
    split; [exact A|].
    intros i t o Hi Ht Hcall Ho.
    pose proof (ready_settled_result _ _ _ _ o (C i t Ht) Ho Hi) as H.
    rewrite Hcall in H. exact H.
Qed.

(** C7, as the source has it.  Nothing in the source clears a global or
    closes what the engine holds: from any state of the event loop, a
    session that is ready is ready ever after, and the engine keeps every
    driver, browser and context it had.  A call made once the session is
    ready changes nothing.  The memoized handle and context themselves
    stay what they are as long as no call that began earlier is still
    suspended in its initialization: from a state in which no task is
    suspended and the session is ready, the process never changes
    again. *)
Theorem ready_is_terminal (s : system) (evs : list event) :
  (ready (sys_world s) = true ->
     ready (sys_world (exec s evs)) = true
     /\ browsers (eng (sys_world s)) `prefix_of` browsers (eng (sys_world (exec s evs)))
     /\ contexts (eng (sys_world s)) `prefix_of` contexts (eng (sys_world (exec s evs))))
  /\ (ready (sys_world s) = true ->
      forall c, (resume (body c) (sys_world s)).2 = sys_world s)
  /\ (forall f evs0, s = exec (boot f) evs0 -> quiescent s = true ->
      ready (sys_world s) = true ->
      sys_world (exec s evs) = sys_world s).
Proof.
  split; [|split].
  - intros Hr. pose proof (later_exec evs s) as (A & B & _ & C & D & _).
    unfold ready in *.
    destruct (_browser (mem (sys_world s))) as [b|]; [|discriminate].
    destruct (_browser_context (mem (sys_world s))) as [c|]; [|discriminate].
    destruct (A ltac:(eauto)) as [b' ->]. destruct (B ltac:(eauto)) as [c' ->]. auto.
  - intros Hr c. unfold ready in Hr.
    destruct (_browser (mem (sys_world s))) as [b|] eqn:Hb; [|discriminate].
    destruct (_browser_context (mem (sys_world s))) as [ctx|] eqn:Hc; [|discriminate].
    destruct (memoized_call_returns (sys_world s)) as [H1 H2].
    destruct c; [rewrite (proj1 (H1 b Hb)) | rewrite (proj1 (H2 ctx Hc))]; reflexivity.
  - intros f evs0 -> Hq Hr. unfold ready in Hr.
    destruct (_browser (mem (sys_world (exec (boot f) evs0)))) as [b|] eqn:Hb; [|discriminate].
    destruct (_browser_context (mem (sys_world (exec (boot f) evs0)))) as [c|] eqn:Hc;
      [|discriminate].
    apply (ready_stable_exec b c _ _ evs Hb Hc _ (ready_stable_quiescent f evs0 b c Hq Hb Hc)).
Qed.

(** *** How many browsers are launched *)

Lemma launches_body (c : call) : launches_at_most 1 (body c).
Proof.
  destruct c; cbn.
  - constructor. intros [b|]; cbn; repeat (constructor; intros).
  - constructor. intros [ctx|]; cbn; [constructor|].
    constructor. intros [b|]; cbn; repeat (constructor; intros).
Qed.

Lemma launches_advance {R : Type} (n : nat) (c : coro R) :
  launches_at_most n c ->
  forall w, launches_at_most n (advance c w).1 /\ eng (advance c w).2 = eng w.
Proof.
  intros H.
  induction H as [n r|n e|n k H IH|n b k H IH|n k H IH|n c k H IH|n k H IH
                 |n pw hl args k H IH|n b vp ua k H IH]; intros w; simpl.
  - split; [constructor | reflexivity].
  - split; [constructor | reflexivity].
  - apply IH.
  - destruct (IH (set_browser b w)). auto.
  - apply IH.
  - destruct (IH (set_context c w)). auto.
  - split; [constructor; exact H | reflexivity].
  - split; [constructor; exact H | reflexivity].
  - split; [constructor; exact H | reflexivity].
Qed.

Lemma launches_resume {R : Type} (n : nat) (c : coro R) (w : world) :
  launches_at_most n c ->
  exists m, launches_at_most m (resume c w).1
    /\ (length (browsers (eng (resume c w).2)) + m <= length (browsers (eng w)) + n)%nat.
Proof.
  intros H. destruct H.
  - exists n. split; [constructor | simpl; lia].
  - exists n. split; [constructor | simpl; lia].
  - destruct (launches_advance n (LoadBrowser k) (la_load_browser n k H) w) as [A B].
    exists n. change (resume (LoadBrowser k) w) with (advance (LoadBrowser k) w).
    rewrite B. split; [exact A | lia].
  - destruct (launches_advance n (StoreBrowser b k) (la_store_browser n b k H) w) as [A B].
    exists n. change (resume (StoreBrowser b k) w) with (advance (StoreBrowser b k) w).
    rewrite B. split; [exact A | lia].
  - destruct (launches_advance n (LoadContext k) (la_load_context n k H) w) as [A B].
    exists n. change (resume (LoadContext k) w) with (advance (LoadContext k) w).
    rewrite B. split; [exact A | lia].
  - destruct (launches_advance n (StoreContext c k) (la_store_context n c k H) w) as [A B].
    exists n. change (resume (StoreContext c k) w) with (advance (StoreContext c k) w).
    rewrite B. split; [exact A | lia].
  - exists n. simpl. unfold start. destruct (faults w (answered (eng w))) as [msg|].
    + split; [constructor | simpl; lia].
    + match goal with |- context [advance ?c ?w'] =>
        destruct (launches_advance n c (H _) w') as [A B] end.
      rewrite B. split; [exact A | simpl; lia].
  - exists n. simpl. unfold launch. destruct (faults w (answered (eng w))) as [msg|].
    + split; [constructor | simpl; lia].
    + match goal with |- context [advance ?c ?w'] =>
        destruct (launches_advance n c (H _) w') as [A B] end.
      rewrite B. split; [exact A | simpl; rewrite length_app; simpl; lia].
  - exists n. simpl. unfold new_context. destruct (faults w (answered (eng w))) as [msg|].
    + split; [constructor | simpl; lia].
    + match goal with |- context [advance ?c ?w'] =>
        destruct (launches_advance n c (H _) w') as [A B] end.
      rewrite B. split; [exact A | simpl; lia].
Qed.

Lemma sum_list_insert (ns : list nat) (i n m : nat) :
  ns !! i = Some n -> (sum_list (<[i := m]> ns) + n = sum_list ns + m)%nat.
Proof.
  revert i. induction ns as [|x ns IH]; intros [|i] H; simpl in *; try discriminate.
  - injection H as ->. lia.
  - specialize (IH i H). lia.
Qed.

Lemma launch_budget_step (bound : nat) (s : system) (e : event) :
  launch_budget bound s ->
  launch_budget (match e with Spawn _ => S bound | Turn _ => bound end) (step s e).
Proof.
  intros (ns & Hall & Hsum). destruct e as [c|i]; simpl.
  - exists (ns ++ [1%nat]). split.
    + apply Forall2_app; [exact Hall|]. constructor; [apply launches_body | constructor].
    + simpl. rewrite sum_list_with_app. simpl. lia.
  - destruct (sys_tasks s !! i) as [t|] eqn:Ht; [|exists ns; auto].
    destruct (Forall2_lookup_r _ _ _ _ _ Hall Ht) as (n & Hn & Hcode).
    destruct (launches_resume n (task_code t) (sys_world s) Hcode) as (m & Hm & Hle).
    destruct (resume (task_code t) (sys_world s)) as [code' w']. simpl in *.
    exists (<[i := m]> ns). split.
    + apply Forall2_insert; [exact Hall | exact Hm].
    + pose proof (sum_list_insert ns i n m Hn). cbn [sys_world]. lia.
Qed.

Lemma launch_budget_exec (evs : list event) :
  forall bound s, launch_budget bound s -> launch_budget (bound + spawned evs) (exec s evs).
Proof.
  unfold spawned.
  induction evs as [|e evs IH]; intros bound s H; simpl.
  - rewrite Nat.add_0_r. exact H.
  - pose proof (launch_budget_step bound s e H) as H'.
    destruct e as [c|i]; simpl.
    + replace (bound + S (length (List.filter _ evs)))%nat
        with (S bound + length (List.filter
               (fun e => match e with Spawn _ => true | Turn _ => false end) evs))%nat by lia.
      apply IH. exact H'.
    + apply IH. exact H'.
Qed.

(** *** Calls made one after another *)

Lemma run_get_browser (w : world) :
  run get_browser w =
    match _browser (mem w) with
    | Some b => (Returned b, w)
    | None =>
        match start w with
        | (Returned pw, w1) =>
            match launch pw true chromium_args w1 with
            | (Returned b, w2) => (Returned b, set_browser b w2)
            | (Raised e, w2) => (Raised e, w2)
            end
        | (Raised e, w1) => (Raised e, w1)
        end
    end.
Proof.
  cbn. destruct (_browser (mem w)); [reflexivity|]. cbn.
  destruct (start w) as [[pw|e] w1]; [|reflexivity].
  destruct (launch pw true chromium_args w1) as [[b|e] w2]; reflexivity.
Qed.

Lemma run_bind {A B : Type} (m : coro A) (k : A -> coro B) :
  forall w, run (m ≫= k) w =
    match run m w with
    | (Returned a, w') => run (k a) w'
    | (Raised e, w') => (Raised e, w')
    end.
Proof.
  unfold mbind, coro_bind.
  induction m as [r|e|k' IH|b k' IH|k' IH|c k' IH|k' IH|pw hl args k' IH|b vp ua k' IH];
    intros w; cbn [bind run]; auto.
  - destruct (start w) as [[pw|e] w']; auto.
  - destruct (launch pw hl args w) as [[b|e] w']; auto.
  - destruct (new_context b vp ua w) as [[c|e] w']; auto.
Qed.

Lemma run_get_browser_context (w : world) :
  run get_browser_context w =
    match _browser_context (mem w) with
    | Some c => (Returned c, w)
    | None =>
        match run get_browser w with
        | (Returned b, w1) =>
            match new_context b (1920, 1080)%Z chrome_user_agent w1 with
            | (Returned c, w2) => (Returned c, set_context c w2)
            | (Raised e, w2) => (Raised e, w2)
            end
        | (Raised e, w1) => (Raised e, w1)
        end
    end.
Proof.
  unfold get_browser_context at 1. cbn [mbind coro_bind load_context bind run].
  destruct (_browser_context (mem w)); [reflexivity|].
  rewrite run_bind. destruct (run get_browser w) as [[b|e] w1]; [|reflexivity].
  cbn. destruct (new_context b (1920, 1080)%Z chrome_user_agent w1) as [[c|e] w2]; reflexivity.
Qed.

Lemma run_body (c : call) (w : world) :
  run (body c) w =
    match c with
    | CallGetBrowser =>
        match run get_browser w with
        | (Returned b, w') => (Returned (BrowserHandle b), w')
        | (Raised e, w') => (Raised e, w')
        end
    | CallGetBrowserContext =>
        match run get_browser_context w with
        | (Returned x, w') => (Returned (ContextHandle x), w')
        | (Raised e, w') => (Raised e, w')
        end
    end.
Proof.
  destruct c; unfold body, fmap, coro_fmap;
    match goal with |- context [bind ?m ?k] => change (bind m k) with (m ≫= k) end;
    rewrite run_bind;
    match goal with |- context [run ?m w] => destruct (run m w) as [[x|e] w'] end; reflexivity.
Qed.

Lemma singleton_get_browser (w : world) :
  singleton w ->
  singleton (run get_browser w).2
  /\ _browser_context (mem (run get_browser w).2) = _browser_context (mem w)
  /\ forall b, (run get_browser w).1 = Returned b -> _browser (mem (run get_browser w).2) = Some b.
Proof.
  intros [Hb Hc]. rewrite run_get_browser.
  destruct (_browser (mem w)) as [b|] eqn:Hm.
  - simpl. unfold singleton. rewrite Hm. repeat split; auto. intros b' [= <-]. reflexivity.
  - unfold start. destruct (faults w (answered (eng w))) as [msg|].
    + simpl. unfold singleton. simpl. rewrite Hm. repeat split; auto. discriminate.
    + unfold launch. cbn [eng faults answered].
      destruct (faults w (S (answered (eng w)))) as [msg|].
      * simpl. unfold singleton. simpl. rewrite Hm. repeat split; auto. discriminate.
      * simpl. unfold singleton. simpl. rewrite Hb. simpl.
        repeat split; auto. intros b' [= <-]. reflexivity.
Qed.

Lemma singleton_get_browser_context (w : world) :
  singleton w -> singleton (run get_browser_context w).2.
Proof.
  intros Hs. rewrite run_get_browser_context.
  destruct (_browser_context (mem w)) as [c|] eqn:Hm; [exact Hs|].
  destruct (singleton_get_browser w Hs) as ([Hb Hc] & Hctx & _).
  destruct (run get_browser w) as [[b|e] w1]; simpl in *; [|split; assumption].
  rewrite Hm in Hctx.
  unfold new_context. destruct (faults w1 (answered (eng w1))) as [msg|].
  - simpl. unfold singleton. simpl. rewrite Hctx. rewrite Hctx in Hc. auto.
  - simpl. unfold singleton. simpl. rewrite Hctx in Hc. rewrite Hc. auto.
Qed.

Lemma singleton_run_body (c : call) (w : world) :
  singleton w -> singleton (run (body c) w).2.
Proof.
  intros Hs. rewrite run_body. destruct c.
  - pose proof (proj1 (singleton_get_browser w Hs)) as H.
    destruct (run get_browser w) as [[b|e] w']; exact H.
  - pose proof (singleton_get_browser_context w Hs) as H.
    destruct (run get_browser_context w) as [[b|e] w']; exact H.
Qed.

Lemma singleton_run_calls (cs : list call) :
  forall w, singleton w -> singleton (run_calls cs w).2.
Proof.
  induction cs as [|c cs IH]; intros w Hs; simpl; [exact Hs|].
  pose proof (singleton_run_body c w Hs) as H1.
  destruct (run (body c) w) as [r w1]. simpl in H1.
  specialize (IH w1 H1). destruct (run_calls cs w1) as [rs w2]. exact IH.
Qed.

(** C4, as the source has it.  In every state that the process reaches
    by making its calls one after another, each given all its turns
    before the next is accepted, the engine holds at most one browser and
    at most one context, and they are the memoized ones.  (The state is
    the one that [run_calls] computes.) *)
Theorem serial_calls_singleton (f : nat -> option pystr) (cs : list call) :
  let s := exec (boot f) (serial_schedule cs (initial f) 0) in
  sys_world s = (run_calls cs (initial f)).2
  /\ singleton (sys_world s)
  /\ (length (browsers (eng (sys_world s))) <= 1)%nat
  /\ (length (contexts (eng (sys_world s))) <= 1)%nat.
Proof.
  intros s. unfold s, boot.
  pose proof (exec_serial_schedule cs [] (initial f)) as Hexec.
  cbn [length] in Hexec. rewrite Hexec. cbn [sys_world].
  assert (H : singleton (run_calls cs (initial f)).2).
  { apply singleton_run_calls. split; reflexivity. }
  split; [reflexivity|]. split; [exact H|]. destruct H as [-> ->].
  split; [destruct (_browser _) | destruct (_browser_context _)]; simpl; lia.
Qed.

Lemma run_calls_memoized (n : nat) (w : world) (b : Browser) :
  _browser (mem w) = Some b ->
  run_calls (replicate n CallGetBrowser) w = (replicate n (Returned (BrowserHandle b)), w).
Proof.
  intros Hb. induction n as [|n IH]; [reflexivity|].
  cbn [replicate run_calls].
  rewrite (proj2 (proj1 (memoized_call_returns w) b Hb)), IH. reflexivity.
Qed.

Lemma run_get_browser_unset (w : world) :
  _browser (mem w) = None ->
  faults w (answered (eng w)) = None -> faults w (S (answered (eng w))) = None ->
  exists b w', run get_browser w = (Returned b, w')
    /\ browsers (eng w') = browsers (eng w) ++ [b]
    /\ _browser (mem w') = Some b.
Proof.
  intros Hb H0 H1. rewrite run_get_browser, Hb. unfold start. rewrite H0.
  unfold launch. cbn [eng faults answered]. rewrite H1.
  eexists. eexists. split; [reflexivity|]. split; reflexivity.
Qed.

(** C1, as the source has it.  A call to [get_browser] that finds the
    handle unset launches a browser of its own.  Made one after another
    from the uninitialized state, with the engine answering, N calls
    cause exactly one launch and all return the same handle; so does
    every call made once a handle is memoized, whatever else is running.
    Calls that overlap while the handle is unset are not kept from
    launching: however the turns of the tasks interleave, the engine
    holds at most as many browsers as calls were made, not at most
    one. *)
Theorem first_calls_launch (f : nat -> option pystr) (evs : list event) :
  (forall w n, _browser (mem w) = None ->
     faults w (answered (eng w)) = None -> faults w (S (answered (eng w))) = None ->
     exists b w',
       run_calls (replicate (S n) CallGetBrowser) w
         = (replicate (S n) (Returned (BrowserHandle b)), w')
       /\ browsers (eng w') = browsers (eng w) ++ [b]
       /\ _browser (mem w') = Some b)
  /\ (forall w b, _browser (mem w) = Some b ->
        resume (body CallGetBrowser) w = (Return (BrowserHandle b), w))
  /\ (length (browsers (eng (sys_world (exec (boot f) evs)))) <= spawned evs)%nat.
Proof.
  split; [|split].
  - intros w n Hb H0 H1.
    destruct (run_get_browser_unset w Hb H0 H1) as (b & w' & Hrun & Hbs & Hm).
    exists b, w'. cbn [replicate run_calls].
    rewrite run_body, Hrun, (run_calls_memoized n w' b Hm). auto.
  - intros w b Hb. apply memoized_call_returns. exact Hb.
  - destruct (launch_budget_exec evs 0 (boot f)) as (ns & _ & H).
    + exists []. split; [constructor | simpl; lia].
    + simpl in H. lia.
Qed.

(** C2.  When the launch inside [get_browser] fails, the engine's error
    reaches the caller as it is (a [SessionInitError] in the taxonomy),
    the globals are what they were, still unset, and the engine holds no
    new browser; the next call starts over: it asks the engine again and,
    if the engine answers, returns and memoizes a fresh handle.  In the
    event loop, the turn in which a launch fails ends the task with that
    error and touches no global. *)
Theorem launch_failure_not_memoized (w : world) (msg : pystr) :
  _browser (mem w) = None ->
  faults w (answered (eng w)) = None ->
  faults w (S (answered (eng w))) = Some msg ->
  (run get_browser w).1 = Raised (PlaywrightError msg)
  /\ error_kind_of (PlaywrightError msg) = Some SessionInitError
  /\ mem (run get_browser w).2 = mem w
  /\ browsers (eng (run get_browser w).2) = browsers (eng w)
  /\ (answered (eng (run get_browser w).2)
        < answered (eng (run get_browser (run get_browser w).2).2))%nat
  /\ (faults w (S (S (answered (eng w)))) = None ->
      faults w (S (S (S (answered (eng w))))) = None ->
      exists b, (run get_browser (run get_browser w).2).1 = Returned b
        /\ _browser (mem (run get_browser (run get_browser w).2).2) = Some b
        /\ browsers (eng (run get_browser (run get_browser w).2).2) = browsers (eng w) ++ [b])
  /\ (forall pw hl args (k : Browser -> coro Browser),
        resume (AwaitLaunch pw hl args k) (start w).2
          = (Raise (PlaywrightError msg), failed (start w).2)
        /\ mem (failed (start w).2) = mem w).
Proof.
  intros Hb H0 H1.
  assert (Hrun : run get_browser w = (Raised (PlaywrightError msg), failed (start w).2)).
  { rewrite run_get_browser, Hb. unfold start. rewrite H0. unfold launch.
    cbn [eng faults answered snd]. rewrite H1. reflexivity. }
  assert (Hstart : start w =
    (Returned {| driver_id := length (drivers (eng w)) |},
     {| mem := mem w;
        eng := {| answered := S (answered (eng w));
                  drivers := drivers (eng w) ++ [ {| driver_id := length (drivers (eng w)) |} ];
                  browsers := browsers (eng w); contexts := contexts (eng w) |};
        faults := faults w |})).
  { unfold start. rewrite H0. reflexivity. }
  rewrite Hrun. cbn [fst snd]. rewrite Hstart. cbn [snd].
  split; [reflexivity|]. split; [reflexivity|]. split; [reflexivity|]. split; [reflexivity|].
  split; [|split].
  - rewrite run_get_browser. cbn [failed mem eng faults answered]. rewrite Hb.
    unfold start. cbn [failed mem eng faults answered].
    destruct (faults w (S (S (answered (eng w))))) as [m1|]; [simpl; lia|].
    unfold launch. cbn [mem eng faults answered].
    destruct (faults w (S (S (S (answered (eng w)))))) as [m2|]; simpl; lia.
  - intros H2 H3. rewrite run_get_browser. cbn [failed mem eng faults answered]. rewrite Hb.
    unfold start. cbn [failed mem eng faults answered]. rewrite H2.
    unfold launch. cbn [mem eng faults answered]. rewrite H3.
    eexists. cbn. repeat split.
  - intros pw hl args k. cbn [resume]. unfold launch.
    cbn [mem eng faults answered]. rewrite H1. split; reflexivity.
Qed.

End SessionFacts.

(** *** The races, run *)

(** C1 as the specification words it does not hold: two calls made
    together on a fresh process both find the handle unset, both launch,
    and return two different handles. *)
Lemma concurrent_first_calls_launch_twice :
  Session.results (Session.exec (Session.boot Races.no_faults) Races.two_first_calls)
    = [ Some (Returned (Session.BrowserHandle (Races.browser_nr 0)));
        Some (Returned (Session.BrowserHandle (Races.browser_nr 1))) ]
  /\ Session.browsers
       (Session.eng (Session.sys_world
          (Session.exec (Session.boot Races.no_faults) Races.two_first_calls)))
     = [ Races.browser_nr 0; Races.browser_nr 1 ]
  /\ Races.browser_nr 0 <> Races.browser_nr 1.
Proof.
  split; [reflexivity|]. split; [reflexivity|]. discriminate.
Qed.

(** The amended C1 on an example: three calls in a row launch once and
    agree, and the two overlapping calls stay within their bound. *)
Lemma first_calls_launch_witness :
  (exists b w',
     Session.run_calls (replicate 3 Session.CallGetBrowser) (Session.initial Races.no_faults)
       = (replicate 3 (Returned (Session.BrowserHandle b)), w')
     /\ Session.browsers (Session.eng w') = [b])
  /\ (length (Session.browsers (Session.eng (Session.sys_world
        (Session.exec (Session.boot Races.no_faults) Races.two_first_calls)))) <= 2)%nat.
Proof.
  pose proof (first_calls_launch Races.no_faults Races.two_first_calls) as (Hserial & _ & Hbound).
  split.
  - destruct (Hserial (Session.initial Races.no_faults) 2%nat eq_refl eq_refl eq_refl)
      as (b & w' & Hrun & Hbs & _).
    exists b, w'. split; [exact Hrun | exact Hbs].
  - exact Hbound.
Defined.

(** The failing launch of C2 on an example: the first call raises the
    engine's error and memoizes nothing, the second call launches. *)
Lemma launch_failure_not_memoized_witness :
  (Session.run Session.get_browser (Session.initial Races.launch_fails_once)).1
    = Raised (PlaywrightError (lit "Executable doesn't exist"))
  /\ Session.mem (Session.run Session.get_browser (Session.initial Races.launch_fails_once)).2
     = Session.mem (Session.initial Races.launch_fails_once)
  /\ exists b,
       (Session.run Session.get_browser
          (Session.run Session.get_browser (Session.initial Races.launch_fails_once)).2).1
       = Returned b.
Proof.
  pose proof (launch_failure_not_memoized (Session.initial Races.launch_fails_once)
                (lit "Executable doesn't exist") eq_refl eq_refl eq_refl)
    as (Hraise & _ & Hmem & _ & _ & Hretry & _).
  split; [exact Hraise|]. split; [exact Hmem|].
  destruct (Hretry eq_refl eq_refl) as (b & Hb & _). exists b. exact Hb.
Defined.

(** C3 as the specification words it does not hold: of two overlapping
    first calls the first to succeed returns browser 0; the second then
    assigns its own browser 1, and a call made after both returns
    browser 1, not the first result. *)
Lemma overlapping_call_changes_reference :
  Session.results (Session.exec (Session.boot Races.no_faults) (take 6 Races.overlap_then_third))
    = [ Some (Returned (Session.BrowserHandle (Races.browser_nr 0))); None ]
  /\ Session.results (Session.exec (Session.boot Races.no_faults) Races.overlap_then_third)
     = [ Some (Returned (Session.BrowserHandle (Races.browser_nr 0)));
         Some (Returned (Session.BrowserHandle (Races.browser_nr 1)));
         Some (Returned (Session.BrowserHandle (Races.browser_nr 1))) ]
  /\ Session.BrowserHandle (Races.browser_nr 1) <> Session.BrowserHandle (Races.browser_nr 0).
Proof.
  split; [reflexivity|]. split; [reflexivity|]. discriminate.
Qed.

(** The amended C3 on an example: after one call to the end, two more
    calls leave the process as it is and return what is memoized. *)
Lemma memoized_reference_stable_witness :
  Session.quiescent (Session.exec (Session.boot Races.no_faults) (fst Races.one_call_then_two))
    = true
  /\ Session.sys_world
       (Session.exec (Session.exec (Session.boot Races.no_faults) (fst Races.one_call_then_two))
                     (snd Races.one_call_then_two))
     = Session.sys_world (Session.exec (Session.boot Races.no_faults) (fst Races.one_call_then_two))
  /\ Session.results
       (Session.exec (Session.exec (Session.boot Races.no_faults) (fst Races.one_call_then_two))
                     (snd Races.one_call_then_two))
     = [ Some (Returned (Session.ContextHandle (Races.context_nr 0)));
         Some (Returned (Session.BrowserHandle (Races.browser_nr 0)));
         Some (Returned (Session.ContextHandle (Races.context_nr 0))) ].
Proof.
  pose proof (memoized_reference_stable Races.no_faults (fst Races.one_call_then_two)
                (snd Races.one_call_then_two) eq_refl) as [_ Hready].
  destruct (Hready (Races.context_nr 0) eq_refl) as (_ & _ & Hworld & _).
  split; [reflexivity|]. split; [exact Hworld | reflexivity].
Defined.

(** C4 as the specification words it does not hold: two overlapping
    first calls to [get_browser_context] leave the engine with two
    browsers and two contexts. *)
Lemma overlapping_calls_two_engines :
  Session.browsers (Session.eng (Session.sys_world
     (Session.exec (Session.boot Races.no_faults)
        (Races.first_context_call_done ++ Races.second_context_call_done))))
    = [ Races.browser_nr 0; Races.browser_nr 1 ]
  /\ Session.contexts (Session.eng (Session.sys_world
       (Session.exec (Session.boot Races.no_faults)
          (Races.first_context_call_done ++ Races.second_context_call_done))))
     = [ Races.context_nr 0; Races.context_nr 1 ].
Proof. split; reflexivity. Qed.

(** The amended C4 on an example: browser, context and browser again,
    one call after the other. *)
Lemma serial_calls_singleton_witness :
  Session.browsers (Session.eng (Session.sys_world
     (Session.exec (Session.boot Races.no_faults)
        (Session.serial_schedule
           [Session.CallGetBrowser; Session.CallGetBrowserContext; Session.CallGetBrowser]
           (Session.initial Races.no_faults) 0)))) = [ Races.browser_nr 0 ]
  /\ Session.singleton (Session.sys_world
       (Session.exec (Session.boot Races.no_faults)
          (Session.serial_schedule
             [Session.CallGetBrowser; Session.CallGetBrowserContext; Session.CallGetBrowser]
             (Session.initial Races.no_faults) 0))).
Proof.
  split; [reflexivity|].
  exact (proj1 (proj2 (serial_calls_singleton Races.no_faults
    [Session.CallGetBrowser; Session.CallGetBrowserContext; Session.CallGetBrowser]))).
Defined.

(** C7 as the specification words it does not hold: when the first of
    two overlapping calls to [get_browser_context] has finished, the
    session is ready with browser 0 and context 0; the second call, which
    began before, then replaces both. *)
Lemma ready_session_replaced :
  Session.ready (Session.sys_world
     (Session.exec (Session.boot Races.no_faults) Races.first_context_call_done)) = true
  /\ Session.mem (Session.sys_world
       (Session.exec (Session.boot Races.no_faults) Races.first_context_call_done))
     = {| Session._browser := Some (Races.browser_nr 0);
          Session._browser_context := Some (Races.context_nr 0) |}
  /\ Session.mem (Session.sys_world
       (Session.exec
          (Session.exec (Session.boot Races.no_faults) Races.first_context_call_done)
          Races.second_context_call_done))
     = {| Session._browser := Some (Races.browser_nr 1);
          Session._browser_context := Some (Races.context_nr 1) |}
  /\ Races.browser_nr 1 <> Races.browser_nr 0
  /\ Races.context_nr 1 <> Races.context_nr 0.
Proof.
  split; [reflexivity|]. split; [reflexivity|]. split; [reflexivity|].
  split; discriminate.
Qed.

(** The amended C7 on an example: the session made ready by one call
    stays ready and unchanged through two more calls. *)
Lemma ready_is_terminal_witness :
  Session.ready (Session.sys_world
     (Session.exec (Session.exec (Session.boot Races.no_faults) (fst Races.one_call_then_two))
                   (snd Races.one_call_then_two))) = true
  /\ Session.sys_world
       (Session.exec (Session.exec (Session.boot Races.no_faults) (fst Races.one_call_then_two))
                     (snd Races.one_call_then_two))
     = Session.sys_world (Session.exec (Session.boot Races.no_faults) (fst Races.one_call_then_two)).
Proof.
  pose proof (ready_is_terminal
                (Session.exec (Session.boot Races.no_faults) (fst Races.one_call_then_two))
                (snd Races.one_call_then_two)) as (Hstays & _ & Hsame).
  split.
  - exact (proj1 (Hstays eq_refl)).
  - exact (Hsame Races.no_faults (fst Races.one_call_then_two) eq_refl eq_refl eq_refl).
Defined.

(** ** The stateless tools and prompts *)

Section ToolsFacts.
Import Session Tools.
Variable float_str : float -> pystr.

Lemma pure_state_independent {A : Type} (a : A) : state_independent (Return a).
Proof. intros w1 w2. repeat split. Qed.

(** C10.  [echo], [add], [hello_prompt] and [sum_prompt] are functions
    of their arguments alone: run in any two states of the process with
    the same arguments they return the same result, they raise nothing,
    and they leave the process, the browser session included, exactly as
    it was. *)
Theorem stateless_tools (text : pystr) (a b : float) (name : option pystr)
    (numbers : list float) :
  state_independent (echo text)
  /\ state_independent (add a b)
  /\ state_independent (hello_prompt name)
  /\ state_independent (sum_prompt float_str numbers)
  /\ (forall w, (run (echo text) w).1 = Returned text)
  /\ (forall w, (run (add a b) w).1 = Returned (a + b)%float).
Proof.
  split; [apply pure_state_independent|].
  split; [apply pure_state_independent|].
  split; [apply pure_state_independent|].
  split; [apply pure_state_independent|].
  split; intros w; reflexivity.
Qed.

End ToolsFacts.

(** The session functions are not state-independent: [get_browser]
    launches in a fresh process and does not in a warm one. *)
Lemma get_browser_state_dependent : ~ Tools.state_independent Session.get_browser.
Proof.
  intros H. destruct (H (Session.initial Races.no_faults) Races.warm) as (_ & _ & Hsame & _).
  vm_compute in Hsame. discriminate Hsame.
Qed.

Example echo_example (w : Session.world) :
  Session.run (Tools.echo (lit "ping")) w = (Returned (lit "ping"), w).
Proof. reflexivity. Qed.

Example add_example (w : Session.world) :
  Session.run (Tools.add 1.5 2.25) w = (Returned 3.75%float, w).
Proof. reflexivity. Qed.

Example hello_example (w : Session.world) :
  Session.run (Tools.hello_prompt None) w
  = (Returned (lit "Hello, world! I am an MCP server with browser capabilities. How can I help?"), w).
Proof. reflexivity. Qed.

(** ** The operation registry *)

Section RegistryFacts.
Import Session Registry.

Lemma populate_fresh (ds : list descriptor) :
  forall (r0 r : registry) (key : kind * pystr),
    populate ds r0 = Result r -> r0 !! key = None -> key ∉ key_of <$> ds -> r !! key = None.
Proof.
  induction ds as [|d ds IH]; intros r0 r key Hpop Hnone Hnotin; simpl in Hpop.
  - injection Hpop as <-. exact Hnone.
  - unfold register in Hpop. destruct (r0 !! key_of d) eqn:Hd; [discriminate|].
    rewrite fmap_cons in Hnotin. apply not_elem_of_cons in Hnotin as [Hne Hrest].
    apply (IH _ _ _ Hpop); [|exact Hrest].
    rewrite lookup_insert_ne by congruence. exact Hnone.
Qed.

(** Descriptors with distinct keys all register. *)
Lemma populate_distinct (ds : list descriptor) :
  forall r0 : registry,
    NoDup (key_of <$> ds) ->
    (forall key, key ∈ key_of <$> ds -> r0 !! key = None) ->
    exists r, populate ds r0 = Result r.
Proof.
  induction ds as [|d ds IH]; intros r0 Hnd Hfree; simpl.
  - eauto.
  - rewrite fmap_cons in Hnd. apply NoDup_cons in Hnd as [Hd Hnd].
    unfold register. rewrite (Hfree (key_of d)) by (rewrite fmap_cons; left).
    apply IH; [exact Hnd|]. intros key Hkey.
    rewrite lookup_insert_ne by (intros <-; contradiction).
    apply Hfree. rewrite fmap_cons. right. exact Hkey.
Qed.

(** A second registration under a key fails with [DuplicateNameError]. *)
Lemma register_duplicate (d : descriptor) (r : registry) :
  is_Some (r !! key_of d) ->
  register d r = Error {| code := DuplicateNameError; message := d_name d |}.
Proof. intros [d' H]. unfold register. rewrite H. reflexivity. Qed.

Lemma dispatch_unknown (r : registry) (k : kind) (name : pystr) (args : arguments) (w : world) :
  r !! (k, name) = None ->
  dispatch r k name args w = (Error {| code := UnknownOperationError; message := name |}, w).
Proof. intros H. unfold dispatch. rewrite H. reflexivity. Qed.

(** C8.  In a registry populated at startup from a list of descriptors,
    dispatching a (kind, name) pair that none of the descriptors carries
    fails with [UnknownOperationError], whatever the arguments and the
    state, and with no other kind of error. *)
Theorem dispatch_unregistered (ds : list descriptor) (r : registry) (k : kind) (name : pystr)
    (args : arguments) (w : world) :
  populate ds ∅ = Result r ->
  (k, name) ∉ key_of <$> ds ->
  dispatch r k name args w = (Error {| code := UnknownOperationError; message := name |}, w)
  /\ (forall f w', dispatch r k name args w = (Error f, w') -> code f = UnknownOperationError)
  /\ (forall v w', dispatch r k name args w <> (Result v, w')).
Proof.
  intros Hpop Hnotin.
  assert (H : dispatch r k name args w
              = (Error {| code := UnknownOperationError; message := name |}, w)).
  { apply dispatch_unknown. apply (populate_fresh ds ∅ r); [exact Hpop | | exact Hnotin].
    apply lookup_empty. }
  split; [exact H|]. rewrite H. split.
  - intros f w' [= <- _]. reflexivity.
  - intros v w'. discriminate.
Qed.

End RegistryFacts.

(** The seven registrations of [server.py] embedded above, on the
    example host (the float printer plays no part): a registered tool is
    dispatched to its handler, a missing argument is named, and the
    failure of a handler comes back in the envelope. *)
Example server_registry_dispatch :
  match Registry.server_registry Hosts.sh Hosts.host Hosts.app_dir (fun _ => lit "nan") with
  | Registry.Result r =>
      (Registry.dispatch r Registry.Tool (lit "echo")
         [ (lit "text", Registry.JString (lit "ping")) ] (Session.initial Races.no_faults)).1
       = Registry.Result (Registry.JString (lit "ping"))
      /\ (Registry.dispatch r Registry.Tool (lit "echo") [] (Session.initial Races.no_faults)).1
         = Registry.Error {| Registry.code := InvalidArgumentError;
                             Registry.message := lit "text" |}
      /\ (Registry.dispatch r Registry.Tool (lit "execute_command")
            [ (lit "command", Registry.JString (lit "exit 1")) ]
            (Session.initial Races.no_faults)).1
         = Registry.Error {| Registry.code := CommandExecutionError;
                             Registry.message := lit "Command failed with error: boom" |}
  | Registry.Error _ => False
  end.
Proof. vm_compute. repeat split. Qed.

Section RegistryExamples.
Import Registry.

Lemma server_keys_distinct :
  NoDup (Registry.key_of <$>
           Registry.server_descriptors Hosts.sh Hosts.host Hosts.app_dir (fun _ => lit "nan")).
Proof. apply (bool_decide_unpack _). vm_compute. exact I. Qed.

Lemma shutdown_not_registered :
  (Registry.Tool, lit "shutdown")
    ∉ Registry.key_of <$>
        Registry.server_descriptors Hosts.sh Hosts.host Hosts.app_dir (fun _ => lit "nan").
Proof. apply (bool_decide_unpack _). vm_compute. exact I. Qed.

(** C8 on the seven registrations of [server.py] embedded above (the
    source registers no tool called [shutdown] either): they populate a
    registry, no tool in it is called [shutdown], and dispatching that
    name fails with [UnknownOperationError]. *)
Lemma dispatch_unregistered_witness :
  exists r,
    Registry.server_registry Hosts.sh Hosts.host Hosts.app_dir (fun _ => lit "nan")
      = Registry.Result r
    /\ Registry.dispatch r Registry.Tool (lit "shutdown") [] (Session.initial Races.no_faults)
       = (Registry.Error {| Registry.code := UnknownOperationError;
                            Registry.message := lit "shutdown" |},
          Session.initial Races.no_faults).
Proof.
  destruct (populate_distinct _ ∅ server_keys_distinct (fun key _ => lookup_empty key))
    as [r Hr].
  exists r. split; [exact Hr|].
  exact (proj1 (dispatch_unregistered _ r Registry.Tool (lit "shutdown") []
                  (Session.initial Races.no_faults) Hr shutdown_not_registered)).
Defined.

End RegistryExamples.

(** * Further properties *)

(** ** The command executor *)

Section CommandMore.
Import Command.

Lemma lstrip_nil_iff (s : pystr) : lstrip s = [] <-> forallb is_space s = true.
Proof.
  induction s as [|c r IH]; simpl; [tauto|].
  destruct (is_space c); simpl; [exact IH|]. split; discriminate.
Qed.

Lemma lstrip_spaces (s : pystr) : forallb is_space s = true -> lstrip s = [].
Proof. apply lstrip_nil_iff. Qed.

Lemma forallb_lstrip (s : pystr) :
  forallb is_space s = forallb is_space (lstrip s).
Proof.
  induction s as [|c r IH]; simpl; [reflexivity|].
  destruct (is_space c) eqn:Hc; simpl; [exact IH | rewrite Hc; reflexivity].
Qed.

Lemma forallb_rev_eq (s : pystr) : forallb is_space (rev s) = forallb is_space s.
Proof.
  destruct (forallb is_space s) eqn:H.
  - apply forallb_rev. exact H.
  - destruct (forallb is_space (rev s)) eqn:H'; [|reflexivity].
    apply forallb_rev in H'. rewrite rev_involutive in H'. congruence.
Qed.

Lemma strip_nil_iff (s : pystr) : strip s = [] <-> forallb is_space s = true.
Proof.
  unfold strip, rstrip. rewrite (forallb_lstrip s), <- (forallb_rev_eq (lstrip s)).
  rewrite <- lstrip_nil_iff. split.
  - intros H. apply (f_equal (@rev N)) in H. rewrite rev_involutive in H. exact H.
  - intros ->. reflexivity.
Qed.

(** X1.  What [execute_command] reports of a failed command is its
    standard error and nothing else: two failed runs with the same
    trimmed standard error raise the same error, whatever their exit
    statuses and their standard outputs were.  Likewise the standard
    error of a successful command is dropped: two successful runs with
    the same trimmed standard output return the same text. *)
Theorem execute_command_forgets (shell1 shell2 : pystr -> shell_run) (command : pystr)
    (p1 p2 : CompletedProcess) :
  shell1 command = Exited p1 -> shell2 command = Exited p2 ->
  (returncode p1 <> 0%Z -> returncode p2 <> 0%Z ->
   strip (stderr p1) = strip (stderr p2) ->
   execute_command shell1 command = execute_command shell2 command)
  /\ (returncode p1 = 0%Z -> returncode p2 = 0%Z ->
      strip (stdout p1) = strip (stdout p2) ->
      execute_command shell1 command = execute_command shell2 command).
Proof.
  intros H1 H2. rewrite (execute_command_exited _ _ _ H1), (execute_command_exited _ _ _ H2).
  split.
  - intros Hn1 Hn2 Herr.
    destruct (Z.eqb_spec (returncode p1) 0); [contradiction|].
    destruct (Z.eqb_spec (returncode p2) 0); [contradiction|].
    rewrite Herr. reflexivity.
  - intros -> -> Hout. simpl. rewrite Hout. reflexivity.
Qed.

(** X2.  A successful command returns the empty string exactly when it
    printed nothing but whitespace (or nothing at all). *)
Theorem execute_command_empty (shell : pystr -> shell_run) (command : pystr)
    (p : CompletedProcess) :
  shell command = Exited p -> returncode p = 0%Z ->
  (execute_command shell command = Returned [] <-> forallb is_space (stdout p) = true).
Proof.
  intros Hs Hz. rewrite (execute_command_exited _ _ _ Hs), Hz. simpl.
  rewrite <- strip_nil_iff. split; [intros [= H]; exact H | intros ->; reflexivity].
Qed.

End CommandMore.

Lemma execute_command_forgets_witness :
  Command.execute_command Hosts.sh (lit "exit 1")
  = Command.execute_command Hosts.sh_other (lit "exit 1").
Proof.
  exact (proj1 (execute_command_forgets Hosts.sh Hosts.sh_other (lit "exit 1") _ _
                  eq_refl eq_refl)
           ltac:(discriminate) ltac:(discriminate) eq_refl).
Defined.

Lemma execute_command_empty_witness :
  Command.execute_command Hosts.sh_other (lit "true") = Returned [].
Proof.
  exact (proj2 (execute_command_empty Hosts.sh_other (lit "true") _ eq_refl eq_refl) eq_refl).
Defined.

(** ** Text mode, the other way round *)

Section Utf8More.
Import Files.






Lemma universal_newlines_no_CR_bounded (n : nat) :
  forall s : pystr, (length s <= n)%nat -> ~ In CR (universal_newlines s).
Proof.
  induction n as [|n IH]; intros s Hlen.
  - destruct s; [intros [] | simpl in Hlen; lia].
  - destruct s as [|c r]; [intros []|]. simpl in Hlen. cbn [universal_newlines].
    destruct (N.eqb_spec c CR) as [->|Hc].
    + destruct r as [|d r'].
      * intros [H|[]]. discriminate H.
      * simpl in Hlen. destruct (d =? LF).
        -- intros [H|H]; [discriminate H | apply (IH r' ltac:(lia) H)].
        -- intros [H|H]; [discriminate H | apply (IH (d :: r') ltac:(simpl; lia) H)].
    + intros [H|H]; [congruence | apply (IH r ltac:(lia) H)].
Qed.

Lemma universal_newlines_no_CR (s : pystr) : ~ In CR (universal_newlines s).
Proof. apply (universal_newlines_no_CR_bounded (length s)). reflexivity. Qed.

End Utf8More.

(** ** The resource reader *)

Section FilesMore.
Import Files.

Lemma split_slash_snoc (s : pystr) :
  forall acc, split_slash acc (s ++ [slash]) = split_slash acc s ++ [[]].
Proof.
  induction s as [|c r IH]; intros acc; simpl; [reflexivity|].
  destruct (c =? slash); [rewrite IH; reflexivity | apply IH].
Qed.

(** pathlib drops a trailing slash and a leading [./]. *)
Lemma parts_snoc_slash (s : pystr) : parts (s ++ [slash]) = parts s.
Proof.
  unfold parts. rewrite split_slash_snoc, List.filter_app. simpl. apply app_nil_r.
Qed.

Lemma parts_dot_slash (s : pystr) : parts (lit "./" ++ s) = parts s.
Proof. reflexivity. Qed.

Lemma is_absolute_snoc (s : pystr) : s <> [] -> is_absolute (s ++ [slash]) = is_absolute s.
Proof. destruct s; [contradiction | reflexivity]. Qed.

Variable root : node.
Variable project_dir : list pystr.

(** Two names that pathlib joins to the same path are read alike, up
    to the name quoted in the error. *)
Lemma read_resource_same_path (n1 n2 : pystr) :
  joinpath (resources_dir project_dir) n1 = joinpath (resources_dir project_dir) n2 ->
  (forall text, read_resource root project_dir n1 = Returned text
                <-> read_resource root project_dir n2 = Returned text)
  /\ (forall e, read_resource root project_dir n1 = Raised e ->
        exists e', read_resource root project_dir n2 = Raised e'
                   /\ error_kind_of e' = error_kind_of e).
Proof.
  intros H. unfold read_resource. rewrite H.
  destruct (path_exists root _) as [[|]|e0]; [destruct (is_file root _) as [[|]|e1]|..];
    try (split; [intros text; split; discriminate|];
         intros e [= <-]; eexists; split; reflexivity).
  split; [tauto|]. intros e He. exists e. split; [exact He | reflexivity].
Qed.


(** X4.  The name is read as a path, not as a file name: a trailing
    slash and a leading [./] make no difference to what is read (only
    to the name quoted in the error). *)
Theorem read_resource_normalizes (name : pystr) :
  (name <> [] ->
   (forall text, read_resource root project_dir (name ++ [slash]) = Returned text
                 <-> read_resource root project_dir name = Returned text)
   /\ (forall e, read_resource root project_dir (name ++ [slash]) = Raised e ->
         exists e', read_resource root project_dir name = Raised e'
                    /\ error_kind_of e' = error_kind_of e))
  /\ (is_absolute name = false ->
      (forall text, read_resource root project_dir (lit "./" ++ name) = Returned text
                    <-> read_resource root project_dir name = Returned text)
      /\ (forall e, read_resource root project_dir (lit "./" ++ name) = Raised e ->
            exists e', read_resource root project_dir name = Raised e'
                       /\ error_kind_of e' = error_kind_of e)).
Proof.
  split.
  - intros Hne. apply read_resource_same_path.
    unfold joinpath. rewrite (is_absolute_snoc name Hne), parts_snoc_slash. reflexivity.
  - intros Hrel. apply read_resource_same_path.
    unfold joinpath. rewrite parts_dot_slash, Hrel. reflexivity.
Qed.

(** X5.  Whatever [read_resource] returns holds no carriage return. *)
Theorem read_resource_no_carriage_return (name text : pystr) :
  read_resource root project_dir name = Returned text -> ~ In CR text.
Proof.
  unfold read_resource, read_text.
  destruct (path_exists root _) as [[|]|e0]; try discriminate.
  destruct (is_file root _) as [[|]|e1]; try discriminate.
  destruct (os_stat root _) as [f|[content|es]]; try discriminate.
  destruct (decode_utf8 _) as [t|]; [|discriminate].
  intros [= <-]. apply universal_newlines_no_CR.
Qed.


(** X7.  On a host whose directories can all be searched and whose
    files can all be read, [read_resource] raises three errors and no
    others: its own missing-resource error, which quotes the name as it
    was given, when the path is no regular file; the decoding error when
    the path is a regular file; and the host's error when the host
    refuses the path because a name is too long.  A directory is
    reported as missing, never as a directory. *)
Theorem read_resource_errors (name : pystr) (e : exn) :
  read_resource root project_dir name = Raised e ->
  (e = FileNotFoundError (lit "Resource not found: " ++ name)
   /\ is_file root (joinpath (resources_dir project_dir) name) = Returned false)
  \/ (e = UnicodeDecodeError
      /\ is_file root (joinpath (resources_dir project_dir) name) = Returned true)
  \/ (e = OSError (lit "File name too long")
      /\ os_stat root (joinpath (resources_dir project_dir) name) = inl NameTooLong).
Proof.
  unfold read_resource, read_text, path_exists, is_file.
  destruct (os_stat root (joinpath (resources_dir project_dir) name)) as [f|[content|es]].
  - destruct f; cbn; intros [= <-]; auto.
  - destruct (decode_utf8 _); [discriminate|]. intros [= <-]. right. left. split; reflexivity.
  - intros [= <-]. left. split; reflexivity.
Qed.

(** X8.  The greeting resource and the [read_resource] tool agree on
    [greeting.txt] whenever it is a regular file; when it is not, both
    fail, the tool with its missing-resource error and the resource with
    the host's own error, which for a directory is not a missing-file
    error; and when the host refuses the path, both fail with the
    host's error. *)
Theorem greeting_resource_agrees :
  (is_file root (joinpath (resources_dir project_dir) (lit "greeting.txt")) = Returned true ->
   greeting_resource root project_dir = read_resource root project_dir (lit "greeting.txt"))
  /\ (is_file root (joinpath (resources_dir project_dir) (lit "greeting.txt")) = Returned false ->
      read_resource root project_dir (lit "greeting.txt")
        = Raised (FileNotFoundError (lit "Resource not found: greeting.txt"))
      /\ is_raised (greeting_resource root project_dir) = true
      /\ (path_exists root (joinpath (resources_dir project_dir) (lit "greeting.txt"))
            = Returned true ->
          greeting_resource root project_dir = Raised (OSError (lit "Is a directory"))))
  /\ (forall e,
        is_file root (joinpath (resources_dir project_dir) (lit "greeting.txt")) = Raised e ->
        greeting_resource root project_dir = Raised e
        /\ read_resource root project_dir (lit "greeting.txt") = Raised e).
Proof.
  unfold greeting_resource, read_resource, read_text, path_exists, is_file.
  destruct (os_stat root (joinpath (resources_dir project_dir) (lit "greeting.txt")))
    as [f|[content|es]].
  - destruct f; cbn; (split; [discriminate|]); split;
      try discriminate; try (intros _; repeat split; discriminate);
      intros e [= <-]; split; reflexivity.
  - split; [reflexivity|]. split; discriminate.
  - split; [discriminate|]. split; [|discriminate]. intros _. repeat split.
Qed.

End FilesMore.


(** On the example host, [greeting.txt/] and [./greeting.txt] are read
    as [greeting.txt] is. *)
Lemma read_resource_normalizes_witness :
  Files.read_resource Hosts.host Hosts.app_dir (lit "greeting.txt/") = Returned (lit "hi" ++ [10])
  /\ Files.read_resource Hosts.host Hosts.app_dir (lit "./greeting.txt") = Returned (lit "hi" ++ [10]).
Proof.
  destruct (read_resource_normalizes Hosts.host Hosts.app_dir (lit "greeting.txt"))
    as [Hslash Hdot].
  destruct Hslash as [Hs _]; [discriminate|].
  destruct (Hdot eq_refl) as [Hd _].
  split; [apply (proj2 (Hs _)) | apply (proj2 (Hd _))]; reflexivity.
Defined.

(** The file with Windows line endings is returned without its
    carriage return. *)
Lemma read_resource_no_carriage_return_witness :
  Files.read_resource Hosts.host Hosts.app_dir (lit "crlf.txt") = Returned [97; 10; 98]
  /\ ~ In Files.CR [97; 10; 98].
Proof.
  split; [reflexivity|].
  apply (read_resource_no_carriage_return Hosts.host Hosts.app_dir (lit "crlf.txt")).
  reflexivity.
Defined.


(** On the example host the Latin-1 file fails to decode, the
    resources directory itself is reported as missing, and a name of 256
    letters is refused by the host. *)
Lemma read_resource_errors_witness :
  Files.read_resource Hosts.host Hosts.app_dir (lit "latin1.txt") = Raised UnicodeDecodeError
  /\ Files.is_file Hosts.host
       (Files.joinpath (Files.resources_dir Hosts.app_dir) (lit "latin1.txt")) = Returned true
  /\ Files.read_resource Hosts.host Hosts.app_dir []
     = Raised (FileNotFoundError (lit "Resource not found: "))
  /\ Files.read_resource Hosts.host Hosts.app_dir Hosts.long_name
     = Raised (OSError (lit "File name too long"))
  /\ Files.os_stat Hosts.host
       (Files.joinpath (Files.resources_dir Hosts.app_dir) Hosts.long_name)
     = inl Files.NameTooLong.
Proof.
  destruct (read_resource_errors Hosts.host Hosts.app_dir (lit "latin1.txt")
              UnicodeDecodeError eq_refl) as [[He _]|[[_ Hfile]|[He _]]];
    [discriminate He| |discriminate He].
  destruct (read_resource_errors Hosts.host Hosts.app_dir []
              (FileNotFoundError (lit "Resource not found: ")) eq_refl)
    as [[He _]|[[He _]|[He _]]]; [|discriminate He|discriminate He].
  destruct (read_resource_errors Hosts.host Hosts.app_dir Hosts.long_name
              (OSError (lit "File name too long")) eq_refl)
    as [[Hl _]|[[Hl _]|[_ Hlong]]]; [discriminate Hl|discriminate Hl|].
  split; [reflexivity|]. split; [exact Hfile|]. split; [rewrite He; reflexivity|].
  split; [reflexivity | exact Hlong].
Defined.

(** The greeting of the example host is served alike by the resource
    and by the tool; where [greeting.txt] is a directory, the tool
    reports it missing and the resource fails as the host does. *)
Lemma greeting_resource_agrees_witness :
  Files.greeting_resource Hosts.host Hosts.app_dir
  = Files.read_resource Hosts.host Hosts.app_dir (lit "greeting.txt")
  /\ Files.greeting_resource Hosts.host Hosts.app_dir = Returned (lit "hi" ++ [10])
  /\ Files.greeting_resource
       (Files.Dir [ (lit "app", Files.Dir [ (lit "resources",
                       Files.Dir [ (lit "greeting.txt", Files.Dir []) ]) ]) ])
       Hosts.app_dir
     = Raised (OSError (lit "Is a directory")).
Proof.
  destruct (greeting_resource_agrees Hosts.host Hosts.app_dir) as [Hfile _].
  destruct (greeting_resource_agrees
              (Files.Dir [ (lit "app", Files.Dir [ (lit "resources",
                              Files.Dir [ (lit "greeting.txt", Files.Dir []) ]) ]) ])
              Hosts.app_dir) as (_ & Hdir & _).
  destruct (Hdir eq_refl) as (_ & _ & Hos).
  split; [exact (Hfile eq_refl)|]. split; [reflexivity|]. exact (Hos eq_refl).
Defined.

(** ** The browser session, further *)

Section SessionMore.
Import Session.

(** What a call to [get_browser] made to its end leaves behind. *)
Lemma run_get_browser_facts (w : world) :
  _browser_context (mem (run get_browser w).2) = _browser_context (mem w)
  /\ contexts (eng (run get_browser w).2) = contexts (eng w)
  /\ faults (run get_browser w).2 = faults w
  /\ (forall b, (run get_browser w).1 = Returned b ->
        _browser (mem (run get_browser w).2) = Some b)
  /\ (forall b, _browser (mem w) = Some b -> run get_browser w = (Returned b, w))
  /\ (forall e, (run get_browser w).1 = Raised e -> mem (run get_browser w).2 = mem w).
Proof.
  rewrite run_get_browser. destruct (_browser (mem w)) as [b|] eqn:Hm.
  - simpl. repeat split; auto; try discriminate.
    + intros b' [= <-]. exact Hm.
    + intros b' [= <-]. reflexivity.
  - unfold start. destruct (faults w (answered (eng w))) as [msg|].
    + simpl. repeat split; auto; discriminate.
    + unfold launch. cbn [eng faults answered].
      destruct (faults w (S (answered (eng w)))) as [msg|].
      * simpl. repeat split; auto; discriminate.
      * simpl. repeat split; auto; try discriminate. intros b' [= <-]. reflexivity.
Qed.

(** X9.  How [get_browser_context] fails.  A failure of [get_browser]
    is passed on as it is, with no context requested and the globals
    untouched.  A failure of the context creation comes after the
    browser is memoized: the call raises the engine's error, the browser
    stays memoized and the context unset, and the engine holds no new
    context; the next call, if the engine answers, launches nothing and
    creates the context from that browser. *)
Theorem get_browser_context_failure (w : world) :
  _browser_context (mem w) = None ->
  (forall e, (run get_browser w).1 = Raised e ->
     run get_browser_context w = (Raised e, (run get_browser w).2)
     /\ mem (run get_browser_context w).2 = mem w)
  /\ (forall b msg, (run get_browser w).1 = Returned b ->
        faults w (answered (eng (run get_browser w).2)) = Some msg ->
        let w1 := (run get_browser_context w).2 in
        (run get_browser_context w).1 = Raised (PlaywrightError msg)
        /\ _browser (mem w1) = Some b
        /\ _browser_context (mem w1) = None
        /\ browsers (eng w1) = browsers (eng (run get_browser w).2)
        /\ contexts (eng w1) = contexts (eng w)
        /\ (faults w (S (answered (eng (run get_browser w).2))) = None ->
            let w2 := (run get_browser_context w1).2 in
            exists c, (run get_browser_context w1).1 = Returned c
              /\ context_browser c = b
              /\ _browser_context (mem w2) = Some c
              /\ _browser (mem w2) = Some b
              /\ drivers (eng w2) = drivers (eng w1)
              /\ browsers (eng w2) = browsers (eng w1)
              /\ contexts (eng w2) = contexts (eng w) ++ [c])).
Proof.
  intros Hctx.
  destruct (run_get_browser_facts w) as (Hc & Hcs & Hf & Hret & _ & Hraise).
  split.
  - intros e He. specialize (Hraise e He). rewrite run_get_browser_context, Hctx.
    destruct (run get_browser w) as [[b|e'] wg]; cbn [fst snd] in *; [discriminate He|].
    injection He as ->. split; [reflexivity | exact Hraise].
  - intros b msg Hb Hfail. specialize (Hret b Hb).
    assert (Hrun : run get_browser_context w
                   = (Raised (PlaywrightError msg), failed (run get_browser w).2)).
    { rewrite run_get_browser_context, Hctx.
      destruct (run get_browser w) as [[b'|e'] wg]; cbn [fst snd] in *; [|discriminate Hb].
      injection Hb as ->. unfold new_context. rewrite Hf, Hfail. reflexivity. }
    rewrite Hrun. cbn [fst snd].
    destruct (run get_browser w) as [[b'|e'] wg]; cbn [fst snd] in *; [|discriminate Hb].
    injection Hb as ->. rewrite Hctx in Hc.
    split; [reflexivity|]. split; [exact Hret|]. split; [exact Hc|].
    split; [reflexivity|]. split; [exact Hcs|].
    intros Hok. rewrite run_get_browser_context. cbn [failed mem].
    rewrite Hc, run_get_browser. cbn [mem failed]. rewrite Hret.
    unfold new_context. cbn [faults eng answered failed]. rewrite Hf, Hok.
    eexists. cbn [fst snd]. split; [reflexivity|]. cbn.
    rewrite Hcs, Hret. repeat split; reflexivity.
Qed.

(** X10.  A failed launch leaves its driver behind: the call started a
    driver before the launch failed, nothing stops it, and the retry
    starts another one, so that the browser finally launched runs on the
    second driver while the engine holds both. *)
Theorem failed_launch_leaves_driver (w : world) (msg : pystr) :
  _browser (mem w) = None ->
  faults w (answered (eng w)) = None ->
  faults w (S (answered (eng w))) = Some msg ->
  let w1 := (run get_browser w).2 in
  let first := {| driver_id := length (drivers (eng w)) |} in
  let second := {| driver_id := S (length (drivers (eng w))) |} in
  drivers (eng w1) = drivers (eng w) ++ [first]
  /\ browsers (eng w1) = browsers (eng w)
  /\ (faults w (S (S (answered (eng w)))) = None ->
      faults w (S (S (S (answered (eng w))))) = None ->
      exists b, (run get_browser w1).1 = Returned b
        /\ browser_driver b = second
        /\ drivers (eng (run get_browser w1).2) = drivers (eng w) ++ [first; second]
        /\ browsers (eng (run get_browser w1).2) = browsers (eng w) ++ [b]).
Proof.
  intros Hb H0 H1 w1 first second.
  assert (Hleft : run get_browser w
                  = (Raised (PlaywrightError msg),
                     failed {| mem := mem w;
                               eng := {| answered := S (answered (eng w));
                                         drivers := drivers (eng w) ++ [first];
                                         browsers := browsers (eng w);
                                         contexts := contexts (eng w) |};
                               faults := faults w |})).
  { rewrite run_get_browser, Hb. unfold start. rewrite H0.
    unfold launch. cbn [eng faults answered]. rewrite H1. reflexivity. }
  subst w1. rewrite Hleft. cbn [fst snd failed eng drivers browsers].
  split; [reflexivity|]. split; [reflexivity|].
  intros H2 H3. rewrite run_get_browser. cbn [mem failed]. rewrite Hb.
  unfold start. cbn [eng faults answered failed]. rewrite H2.
  unfold launch. cbn [eng faults answered]. rewrite H3.
  eexists. cbn [fst snd]. split; [reflexivity|]. cbn.
  rewrite length_app, Nat.add_1_r, <- app_assoc. repeat split; reflexivity.
Qed.

(** *** Calls made one after another *)

Lemma run_calls_context_memoized (n : nat) (w : world) (c : BrowserContext) :
  _browser_context (mem w) = Some c ->
  run_calls (replicate n CallGetBrowserContext) w
  = (replicate n (Returned (ContextHandle c)), w).
Proof.
  intros Hc. induction n as [|n IH]; [reflexivity|].
  cbn [replicate run_calls].
  rewrite (proj2 (proj2 (memoized_call_returns w) c Hc)), IH. reflexivity.
Qed.

(** X11.  First calls to [get_browser_context], made one after another
    from the uninitialized state with the engine answering: the first
    call makes three requests, for a driver, a browser and a context, and
    every call returns that one context; the engine has one driver, one
    browser and one context more than before, configured as lines 31-38
    and 46-49 say, and both globals are set. *)
Theorem first_context_calls_create_once (w : world) (n : nat) :
  _browser (mem w) = None ->
  _browser_context (mem w) = None ->
  faults w (answered (eng w)) = None ->
  faults w (S (answered (eng w))) = None ->
  faults w (S (S (answered (eng w)))) = None ->
  exists c w',
    run_calls (replicate (S n) CallGetBrowserContext) w
      = (replicate (S n) (Returned (ContextHandle c)), w')
    /\ answered (eng w') = S (S (S (answered (eng w))))
    /\ drivers (eng w') = drivers (eng w) ++ [browser_driver (context_browser c)]
    /\ browsers (eng w') = browsers (eng w) ++ [context_browser c]
    /\ contexts (eng w') = contexts (eng w) ++ [c]
    /\ _browser (mem w') = Some (context_browser c)
    /\ _browser_context (mem w') = Some c
    /\ headless (context_browser c) = true
    /\ launch_args (context_browser c) = chromium_args
    /\ viewport c = (1920, 1080)%Z
    /\ user_agent c = chrome_user_agent.
Proof.
  intros Hb Hc H0 H1 H2.
  assert (Hfirst : exists c w',
             run (body CallGetBrowserContext) w = (Returned (ContextHandle c), w')
             /\ answered (eng w') = S (S (S (answered (eng w))))
             /\ drivers (eng w') = drivers (eng w) ++ [browser_driver (context_browser c)]
             /\ browsers (eng w') = browsers (eng w) ++ [context_browser c]
             /\ contexts (eng w') = contexts (eng w) ++ [c]
             /\ _browser (mem w') = Some (context_browser c)
             /\ _browser_context (mem w') = Some c
             /\ headless (context_browser c) = true
             /\ launch_args (context_browser c) = chromium_args
             /\ viewport c = (1920, 1080)%Z
             /\ user_agent c = chrome_user_agent).
  { rewrite run_body, run_get_browser_context, Hc, run_get_browser, Hb.
    unfold start. rewrite H0. unfold launch. cbn [eng faults answered]. rewrite H1.
    unfold new_context. cbn [set_browser eng faults answered]. rewrite H2.
    eexists. eexists. split; [reflexivity|]. cbn. repeat split; reflexivity. }
  destruct Hfirst as (c & w' & Hrun & Hrest).
  exists c, w'. cbn [replicate run_calls]. rewrite Hrun.
  rewrite (run_calls_context_memoized n w' c) by apply Hrest.
  split; [reflexivity | exact Hrest].
Qed.

Lemma context_of_browser_run_body (c : call) (w : world) :
  context_of_browser w -> context_of_browser (run (body c) w).2.
Proof.
  intros Hw. rewrite run_body. destruct c.
  - destruct (run_get_browser_facts w) as (Hc & _ & _ & _ & Hmem & _).
    destruct (_browser_context (mem w)) as [c0|] eqn:Hctx.
    + rewrite (Hmem _ (Hw c0 Hctx)). exact Hw.
    + destruct (run get_browser w) as [[b|e] wg]; cbn [fst snd] in *;
        intros c1 Hc1; rewrite Hc in Hc1; discriminate Hc1.
  - rewrite run_get_browser_context.
    destruct (_browser_context (mem w)) as [c0|] eqn:Hctx; [exact Hw|].
    destruct (run_get_browser_facts w) as (Hc & _ & _ & Hret & _ & _).
    destruct (run get_browser w) as [[b|e] wg]; cbn [fst snd] in *.
    + specialize (Hret b eq_refl). unfold new_context.
      destruct (faults wg (answered (eng wg))) as [msg|]; cbn [fst snd].
      * intros c1 Hc1. cbn in Hc1. rewrite Hc, Hctx in Hc1. discriminate Hc1.
      * intros c1 Hc1. cbn in Hc1. injection Hc1 as <-. cbn. exact Hret.
    + intros c1 Hc1. cbn [fst snd] in Hc1. rewrite Hc, Hctx in Hc1. discriminate Hc1.
Qed.

Lemma context_of_browser_run_calls (cs : list call) :
  forall w, context_of_browser w -> context_of_browser (run_calls cs w).2.
Proof.
  induction cs as [|c cs IH]; intros w Hw; simpl; [exact Hw|].
  pose proof (context_of_browser_run_body c w Hw) as H1.
  destruct (run (body c) w) as [r w1]. simpl in H1.
  specialize (IH w1 H1). destruct (run_calls cs w1) as [rs w2]. exact IH.
Qed.

(** X12.  In a process that made its calls one after another, each to
    its end before the next, the memoized context belongs to the memoized
    browser: it was created from the handle that [get_browser] returns. *)
Theorem serial_context_of_browser (f : nat -> option pystr) (cs : list call)
    (c : BrowserContext) :
  let s := exec (boot f) (serial_schedule cs (initial f) 0) in
  _browser_context (mem (sys_world s)) = Some c ->
  _browser (mem (sys_world s)) = Some (context_browser c)
  /\ run get_browser (sys_world s) = (Returned (context_browser c), sys_world s).
Proof.
  intros s. unfold s, boot.
  pose proof (exec_serial_schedule cs [] (initial f)) as Hexec.
  cbn [length] in Hexec. rewrite Hexec. cbn [sys_world].
  intros Hc.
  assert (H : context_of_browser (run_calls cs (initial f)).2).
  { apply context_of_browser_run_calls. intros c0 Hc0. discriminate Hc0. }
  specialize (H c Hc). split; [exact H|].
  apply (run_get_browser_facts (run_calls cs (initial f)).2), H.
Qed.

(** *** Every interleaving *)

Lemma prefix_subseteq {A : Type} (l1 l2 : list A) : l1 `prefix_of` l2 -> l1 ⊆ l2.
Proof. intros [k ->] x Hx. apply elem_of_app. left. exact Hx. Qed.

Lemma tracked_later (w w' : world) (c : coro handle) :
  later w w' -> tracked_in w c -> tracked_in w' c.
Proof.
  intros (_ & _ & _ & Hb & Hc & _) (bs & cs & Hd & Hbs & Hcs).
  exists bs, cs. split; [exact Hd|].
  split; (etrans; [eassumption | apply prefix_subseteq; assumption]).
Qed.

Lemma sound_set_browser (b : Browser) (w : world) :
  sound w -> b ∈ browsers (eng w) -> sound (set_browser b w).
Proof.
  intros (A & B & C & D) Hb. unfold sound. cbn.
  repeat split; auto. intros b' [= <-]. exact Hb.
Qed.

Lemma sound_set_context (c : BrowserContext) (w : world) :
  sound w -> c ∈ contexts (eng w) -> sound (set_context c w).
Proof.
  intros (A & B & C & D) Hc. unfold sound. cbn.
  repeat split; auto. intros c' [= <-]. exact Hc.
Qed.

Lemma sound_start (w : world) : sound w -> sound (start w).2.
Proof.
  intros H. unfold start. destruct (faults w (answered (eng w))); exact H.
Qed.

Lemma sound_launch (pw : Playwright) (w : world) :
  sound w -> sound (launch pw true chromium_args w).2.
Proof.
  intros (A & B & C & D). unfold launch.
  destruct (faults w (answered (eng w))) as [msg|]; [repeat split; assumption|].
  unfold sound. cbn. repeat split.
  - apply Forall_app. split; [exact A|]. constructor; [split; reflexivity | constructor].
  - eapply Forall_impl; [exact B|]. cbn. intros c (V & U & Hin).
    repeat split; auto. apply elem_of_app. left. exact Hin.
  - intros b Hb. apply elem_of_app. left. apply C, Hb.
  - exact D.
Qed.

Lemma sound_new_context (b : Browser) (w : world) :
  sound w -> b ∈ browsers (eng w) ->
  sound (new_context b (1920, 1080)%Z chrome_user_agent w).2.
Proof.
  intros (A & B & C & D) Hb. unfold new_context.
  destruct (faults w (answered (eng w))) as [msg|]; [repeat split; assumption|].
  unfold sound. cbn. repeat split.
  - exact A.
  - apply Forall_app. split; [exact B|]. constructor; [|constructor].
    repeat split. exact Hb.
  - exact C.
  - intros c Hc. apply elem_of_app. left. apply D, Hc.
Qed.

(** An uninterrupted stretch of a disciplined coroutine keeps the world
    sound and the coroutine tracked. *)
Lemma sound_advance (bs : list Browser) (cs : list BrowserContext) (c : coro handle) :
  disciplined held bs cs c ->
  forall w, sound w -> bs ⊆ browsers (eng w) -> cs ⊆ contexts (eng w) ->
    sound (advance c w).2 /\ tracked_in (advance c w).2 (advance c w).1.
Proof.
  induction 1 as [bs cs r Hr|bs cs e|bs cs k H0 IH0 H1 IH1|bs cs b k Hb H IH
                 |bs cs k H0 IH0 H1 IH1|bs cs c k Hc H IH|bs cs k H IH
                 |bs cs pw k H IH|bs cs b k Hb H IH];
    intros w Hw Hbs Hcs; cbn [advance].
  - split; [exact Hw|]. exists bs, cs. split; [constructor; exact Hr | auto].
  - split; [exact Hw|]. exists bs, cs. split; [constructor | auto].
  - destruct (_browser (mem w)) as [b|] eqn:Hm.
    + apply IH1; auto. intros x Hx. apply elem_of_cons in Hx as [->|Hx]; [|auto].
      apply Hw, Hm.
    + apply IH0; auto.
  - apply IH; [apply sound_set_browser; auto | exact Hbs | exact Hcs].
  - destruct (_browser_context (mem w)) as [c|] eqn:Hm.
    + apply IH1; auto. intros x Hx. apply elem_of_cons in Hx as [->|Hx]; [|auto].
      apply Hw, Hm.
    + apply IH0; auto.
  - apply IH; [apply sound_set_context; auto | exact Hbs | exact Hcs].
  - split; [exact Hw|]. exists bs, cs. split; [constructor; exact H | auto].
  - split; [exact Hw|]. exists bs, cs. split; [constructor; exact H | auto].
  - split; [exact Hw|]. exists bs, cs. split; [constructor; assumption | auto].
Qed.

Lemma sound_resume (bs : list Browser) (cs : list BrowserContext) (c : coro handle) (w : world) :
  disciplined held bs cs c ->
  sound w -> bs ⊆ browsers (eng w) -> cs ⊆ contexts (eng w) ->
  sound (resume c w).2 /\ tracked_in (resume c w).2 (resume c w).1.
Proof.
  intros Hd Hw Hbs Hcs.
  destruct Hd as [r Hr|e|k H0 H1|b k Hb H|k H0 H1|c k Hc H|k H|pw k H|b k Hb H].
  - apply (sound_advance bs cs); auto. constructor; exact Hr.
  - apply (sound_advance bs cs); auto. constructor.
  - apply (sound_advance bs cs (LoadBrowser k)); auto. constructor; assumption.
  - apply (sound_advance bs cs (StoreBrowser b k)); auto. constructor; assumption.
  - apply (sound_advance bs cs (LoadContext k)); auto. constructor; assumption.
  - apply (sound_advance bs cs (StoreContext c k)); auto. constructor; assumption.
  - cbn [resume]. pose proof (sound_start w Hw) as Hs.
    pose proof (later_start w) as (_ & _ & _ & Lb & Lc & _).
    destruct (start w) as [[pw|e] w']; cbn [fst snd] in *.
    + apply (sound_advance bs cs); auto;
        (etrans; [eassumption | apply prefix_subseteq; assumption]).
    + split; [exact Hs|]. exists [], []. split; [constructor|].
      split; apply list_subseteq_nil.
  - cbn [resume]. pose proof (sound_launch pw w Hw) as Hs.
    pose proof (later_launch pw true chromium_args w) as (_ & _ & _ & Lb & Lc & _).
    assert (Hnew : forall b w', launch pw true chromium_args w = (Returned b, w') ->
                     b ∈ browsers (eng w')).
    { unfold launch. destruct (faults w (answered (eng w))); [discriminate|].
      intros b w' [= <- <-]. cbn. apply elem_of_app. right. constructor. }
    destruct (launch pw true chromium_args w) as [[b|e] w']; cbn [fst snd] in *.
    + apply (sound_advance (b :: bs) cs); auto.
      * intros x Hx. apply elem_of_cons in Hx as [->|Hx]; [apply Hnew; reflexivity|].
        apply (prefix_subseteq _ _ Lb), Hbs, Hx.
      * etrans; [eassumption | apply prefix_subseteq; assumption].
    + split; [exact Hs|]. exists [], []. split; [constructor|].
      split; apply list_subseteq_nil.
  - cbn [resume]. pose proof (sound_new_context b w Hw (Hbs b Hb)) as Hs.
    pose proof (later_new_context b (1920, 1080)%Z chrome_user_agent w)
      as (_ & _ & _ & Lb & Lc & _).
    assert (Hnew : forall c w',
               new_context b (1920, 1080)%Z chrome_user_agent w = (Returned c, w') ->
               c ∈ contexts (eng w')).
    { unfold new_context. destruct (faults w (answered (eng w))); [discriminate|].
      intros c w' [= <- <-]. cbn. apply elem_of_app. right. constructor. }
    destruct (new_context b (1920, 1080)%Z chrome_user_agent w) as [[c|e] w'];
      cbn [fst snd] in *.
    + apply (sound_advance bs (c :: cs)); auto.
      * etrans; [eassumption | apply prefix_subseteq; assumption].
      * intros x Hx. apply elem_of_cons in Hx as [->|Hx]; [apply Hnew; reflexivity|].
        apply (prefix_subseteq _ _ Lc), Hcs, Hx.
    + split; [exact Hs|]. exists [], []. split; [constructor|].
      split; apply list_subseteq_nil.
Qed.

(** The two calls of the source are disciplined, and return a handle
    they got from the engine or from the globals. *)
Lemma body_disciplined (c : call) : disciplined held [] [] (body c).
Proof.
  destruct c; cbn -[chromium_args chrome_user_agent].
  - apply di_load_browser; cbn -[chromium_args chrome_user_agent].
    + apply di_start. intros pw. cbn -[chromium_args chrome_user_agent].
      apply di_launch. intros b. cbn -[chromium_args chrome_user_agent].
      apply di_store_browser; [constructor|]. apply di_return. constructor.
    + intros b. apply di_return. constructor.
  - apply di_load_context; cbn -[chromium_args chrome_user_agent].
    + apply di_load_browser; cbn -[chromium_args chrome_user_agent].
      * apply di_start. intros pw. cbn -[chromium_args chrome_user_agent].
        apply di_launch. intros b. cbn -[chromium_args chrome_user_agent].
        apply di_store_browser; [constructor|].
        apply di_new_context; [constructor|]. intros c.
        cbn -[chromium_args chrome_user_agent].
        apply di_store_context; [constructor|]. apply di_return. constructor.
      * intros b. apply di_new_context; [constructor|]. intros c.
        cbn -[chromium_args chrome_user_agent].
        apply di_store_context; [constructor|]. apply di_return. constructor.
    + intros c. apply di_return. constructor.
Qed.

Lemma healthy_step (s : system) (e : event) : healthy s -> healthy (step s e).
Proof.
  intros [Hw Hts]. destruct e as [c|i]; cbn [step].
  - split; [exact Hw|]. cbn [sys_world sys_tasks]. apply Forall_app. split; [exact Hts|].
    constructor; [|constructor]. exists [], []. split; [apply body_disciplined|].
    split; apply list_subseteq_nil.
  - destruct (sys_tasks s !! i) as [t|] eqn:Hi; [|split; assumption].
    pose proof (later_resume (task_code t) (sys_world s)) as Hl.
    assert (Ht : tracked_in (sys_world s) (task_code t)).
    { rewrite Forall_lookup in Hts. exact (Hts i t Hi). }
    destruct Ht as (bs & cs & Hd & Hbs & Hcs).
    pose proof (sound_resume bs cs (task_code t) (sys_world s) Hd Hw Hbs Hcs) as [Hw' Ht'].
    destruct (resume (task_code t) (sys_world s)) as [code' w']. cbn [fst snd] in *.
    split; cbn [sys_world sys_tasks]; [exact Hw'|].
    apply Forall_insert; [|exact Ht'].
    eapply Forall_impl; [exact Hts|]. intros t0 Ht0. cbn in Ht0.
    apply (tracked_later (sys_world s)); assumption.
Qed.

Lemma healthy_exec (evs : list event) : forall s, healthy s -> healthy (exec s evs).
Proof.
  induction evs as [|e evs IH]; intros s H; simpl; [exact H|].
  apply IH, healthy_step, H.
Qed.

Lemma healthy_boot (f : nat -> option pystr) : healthy (boot f).
Proof.
  split; [|constructor]. unfold sound. cbn.
  repeat split; try constructor; discriminate.
Qed.

(** X13.  Whatever calls are made and however their turns interleave,
    the engine holds only what the source asked for and the globals hold
    only what the engine gave: every browser is headless and was launched
    with the arguments of lines 32-37, every context has the viewport and
    the user agent of lines 47-48 and belongs to a browser the engine
    holds, and a memoized browser or context is one the engine holds. *)
Theorem session_objects_configured (f : nat -> option pystr) (evs : list event) :
  let w := sys_world (exec (boot f) evs) in
  (forall b, b ∈ browsers (eng w) -> headless b = true /\ launch_args b = chromium_args)
  /\ (forall c, c ∈ contexts (eng w) ->
        viewport c = (1920, 1080)%Z /\ user_agent c = chrome_user_agent
        /\ context_browser c ∈ browsers (eng w))
  /\ (forall b, _browser (mem w) = Some b -> b ∈ browsers (eng w))
  /\ (forall c, _browser_context (mem w) = Some c -> c ∈ contexts (eng w)).
Proof.
  intros w. destruct (healthy_exec evs (boot f) (healthy_boot f)) as [(A & B & C & D) _].
  fold w in A, B, C, D. rewrite Forall_forall in A. rewrite Forall_forall in B.
  repeat split; auto; try apply A; try apply B; assumption.
Qed.

(** X14.  Whatever calls are made and however their turns interleave, a
    call that returns hands back an object the engine holds, configured
    as the source asks: [get_browser] a headless browser launched with
    the arguments of lines 32-37, [get_browser_context] a context with
    the viewport and the user agent of lines 47-48 on a browser the
    engine holds. *)
Theorem returned_handles_held (f : nat -> option pystr) (evs : list event)
    (i : nat) (t : task) (h : handle) :
  let s := exec (boot f) evs in
  sys_tasks s !! i = Some t ->
  result_of t = Some (Returned h) ->
  match h with
  | BrowserHandle b =>
      b ∈ browsers (eng (sys_world s))
      /\ headless b = true /\ launch_args b = chromium_args
  | ContextHandle c =>
      c ∈ contexts (eng (sys_world s))
      /\ viewport c = (1920, 1080)%Z /\ user_agent c = chrome_user_agent
      /\ context_browser c ∈ browsers (eng (sys_world s))
  end.
Proof.
  intros s Hi Hr.
  destruct (healthy_exec evs (boot f) (healthy_boot f)) as [(A & B & _ & _) Hts].
  fold s in A, B, Hts. rewrite Forall_forall in A. rewrite Forall_forall in B.
  rewrite Forall_lookup in Hts. destruct (Hts i t Hi) as (bs & cs & Hd & Hbs & Hcs).
  unfold result_of in Hr. destruct (task_code t) as [r| | | | | | | |]; try discriminate Hr.
  injection Hr as ->. inversion Hd as [r Hheld| | | | | | | |]; subst.
  destruct h as [b|c]; cbn in Hheld.
  - split; [apply Hbs, Hheld|]. apply A, Hbs, Hheld.
  - split; [apply Hcs, Hheld|]. apply B, Hcs, Hheld.
Qed.

End SessionMore.

(** A failing context creation on a fresh process: the browser of the
    first call is kept, and the second call creates its context on it. *)
Lemma get_browser_context_failure_witness :
  (Session.run Session.get_browser_context (Session.initial Races.context_fails_once)).1
  = Raised (PlaywrightError (lit "Target closed"))
  /\ Session._browser (Session.mem
       (Session.run Session.get_browser_context
          (Session.initial Races.context_fails_once)).2)
     = Some (Races.browser_nr 0)
  /\ exists c,
       (Session.run Session.get_browser_context
          (Session.run Session.get_browser_context
             (Session.initial Races.context_fails_once)).2).1 = Returned c
       /\ Session.context_browser c = Races.browser_nr 0.
Proof.
  destruct (get_browser_context_failure (Session.initial Races.context_fails_once) eq_refl)
    as [_ H].
  pose proof (H (Races.browser_nr 0) (lit "Target closed") eq_refl eq_refl) as H'.
  cbv zeta in H'. destruct H' as (A & B & _ & _ & _ & F).
  split; [exact A|]. split; [exact B|].
  destruct (F eq_refl) as (c & Hc & Hb & _). exists c. split; assumption.
Defined.

(** A failing launch on a fresh process: the first driver is left
    behind, and the browser of the retry runs on the second. *)
Lemma failed_launch_leaves_driver_witness :
  Session.drivers (Session.eng
     (Session.run Session.get_browser (Session.initial Races.launch_fails_once)).2)
  = [ {| Session.driver_id := 0 |} ]
  /\ exists b,
       (Session.run Session.get_browser
          (Session.run Session.get_browser (Session.initial Races.launch_fails_once)).2).1
       = Returned b
       /\ Session.browser_driver b = {| Session.driver_id := 1 |}.
Proof.
  pose proof (failed_launch_leaves_driver (Session.initial Races.launch_fails_once)
                (lit "Executable doesn't exist") eq_refl eq_refl eq_refl) as H.
  cbv zeta in H. destruct H as (A & _ & C).
  split; [exact A|].
  destruct (C eq_refl eq_refl) as (b & Hb & Hd & _). exists b. split; assumption.
Defined.

(** Three first calls to [get_browser_context] on a fresh process. *)
Lemma first_context_calls_create_once_witness :
  exists c w',
    Session.run_calls (replicate 3 Session.CallGetBrowserContext)
      (Session.initial Races.no_faults)
    = (replicate 3 (Returned (Session.ContextHandle c)), w')
    /\ Session.answered (Session.eng w') = 3%nat
    /\ Session.contexts (Session.eng w') = [c].
Proof.
  destruct (first_context_calls_create_once (Session.initial Races.no_faults) 2
              eq_refl eq_refl eq_refl eq_refl eq_refl)
    as (c & w' & Hrun & Ha & _ & _ & Hc & _).
  exists c, w'. split; [exact Hrun|]. split; [exact Ha | exact Hc].
Defined.

(** A context call and a browser call, one after the other. *)
Lemma serial_context_of_browser_witness :
  Session._browser (Session.mem (Session.sys_world
     (Session.exec (Session.boot Races.no_faults)
        (Session.serial_schedule [Session.CallGetBrowserContext; Session.CallGetBrowser]
           (Session.initial Races.no_faults) 0))))
  = Some (Session.context_browser (Races.context_nr 0)).
Proof.
  apply (serial_context_of_browser Races.no_faults
           [Session.CallGetBrowserContext; Session.CallGetBrowser] (Races.context_nr 0)).
  reflexivity.
Defined.

(** Two overlapping first calls to [get_browser_context]: the second
    call returns the second context, which the engine holds, on the
    second browser. *)
Lemma returned_handles_held_witness :
  Races.context_nr 1 ∈ Session.contexts (Session.eng (Session.sys_world
     (Session.exec (Session.boot Races.no_faults)
        (Races.first_context_call_done ++ Races.second_context_call_done))))
  /\ Session.viewport (Races.context_nr 1) = (1920, 1080)%Z
  /\ Session.user_agent (Races.context_nr 1) = Session.chrome_user_agent
  /\ Session.context_browser (Races.context_nr 1)
     ∈ Session.browsers (Session.eng (Session.sys_world
         (Session.exec (Session.boot Races.no_faults)
            (Races.first_context_call_done ++ Races.second_context_call_done)))).
Proof.
  exact (returned_handles_held Races.no_faults
           (Races.first_context_call_done ++ Races.second_context_call_done) 1
           (Session.served Session.CallGetBrowserContext
              (Returned (Session.ContextHandle (Races.context_nr 1))))
           (Session.ContextHandle (Races.context_nr 1)) eq_refl eq_refl).
Defined.

(** ** The errors of the command executor *)

Section CommandErrors.
Import Command.
Variable shell : pystr -> shell_run.

(** X15.  [execute_command] catches the failed exit status and nothing
    else: what it raises is either its own error, for a command that
    exited with a nonzero status and wrote text; or the decoding error,
    for a command that ran to its exit, with whatever status, but whose
    captured output is no text; or the host's error, for a command that
    did not run.  The last two are passed on as they are and are outside
    the taxonomy; the [CalledProcessError] of [subprocess.run] never
    escapes. *)
Theorem execute_command_errors (command : pystr) (e : exn) :
  execute_command shell command = Raised e ->
  ((exists p, shell command = Exited p /\ returncode p <> 0%Z
              /\ e = RuntimeError (lit "Command failed with error: " ++ strip (stderr p)))
   \/ (exists status, shell command = ExitedUndecodable status
                      /\ e = UnicodeDecodeError /\ error_kind_of e = None)
   \/ (exists f, shell command = NotRun f /\ e = raise_host f /\ error_kind_of e = None))
  /\ (forall rc out err, e <> CalledProcessError rc out err).
Proof.
  unfold execute_command, subprocess_run.
  destruct (shell command) as [p|status|f].
  - destruct (Z.eqb_spec (returncode p) 0) as [Hz|Hnz]; [discriminate|].
    intros [= <-]. split; [|discriminate].
    left. exists p. repeat split. exact Hnz.
  - intros [= <-]. split; [|discriminate].
    right. left. exists status. repeat split.
  - destruct f; intros [= <-]; (split; [|discriminate]);
      right; right; eexists; repeat split.
Qed.

End CommandErrors.

(** On the example shells, [exit 1] fails with the executor's own
    error, and the command that writes a byte that is no text and exits
    with status 2 fails with the decoding error. *)
Lemma execute_command_errors_witness :
  Command.execute_command Hosts.sh (lit "exit 1")
  = Raised (RuntimeError (lit "Command failed with error: boom"))
  /\ (exists p, Hosts.sh (lit "exit 1") = Command.Exited p /\ Command.returncode p <> 0%Z)
  /\ Command.execute_command Hosts.sh_binary (lit "printf '\377' >&2; exit 2")
     = Raised UnicodeDecodeError
  /\ (exists status,
        Hosts.sh_binary (lit "printf '\377' >&2; exit 2") = Command.ExitedUndecodable status).
Proof.
  split; [reflexivity|].
  destruct (execute_command_errors Hosts.sh (lit "exit 1")
              (RuntimeError (lit "Command failed with error: boom")) eq_refl)
    as [[(p & Hp & Hnz & _)|[(st & Hst & _)|(f & Hf & _)]] _];
    [|discriminate Hst|discriminate Hf].
  split; [exists p; split; assumption|]. split; [reflexivity|].
  destruct (execute_command_errors Hosts.sh_binary (lit "printf '\377' >&2; exit 2")
              UnicodeDecodeError eq_refl)
    as [[(q & _ & _ & Hq)|[(st & Hst & _)|(f & Hf & _)]] _];
    [discriminate Hq| |discriminate Hf].
  exists st. exact Hst.
Defined.

(** ** What the engine is asked for *)

Section RequestFacts.
Import Session.
Variable cost : request -> nat.

Lemma requests_body (c : call) : requests_at_most cost (call_cost cost c) (body c).
Proof.
  destruct c; cbn -[chromium_args chrome_user_agent].
  - apply ra_load_browser. intros [b|]; cbn -[chromium_args chrome_user_agent].
    + constructor.
    + eapply ra_start; [reflexivity|]. intros pw. cbn -[chromium_args chrome_user_agent].
      eapply (ra_launch cost 0); [lia|]. intros b. cbn. repeat constructor.
  - apply ra_load_context. intros [c|]; cbn -[chromium_args chrome_user_agent].
    + constructor.
    + apply ra_load_browser. intros [b|]; cbn -[chromium_args chrome_user_agent].
      * eapply (ra_new_context cost 0); [lia|]. intros c. cbn. repeat constructor.
      * eapply (ra_start cost (cost ReqLaunch + cost ReqNewContext)); [lia|].
        intros pw. cbn -[chromium_args chrome_user_agent].
        eapply (ra_launch cost (cost ReqNewContext)); [lia|]. intros b.
        cbn -[chromium_args chrome_user_agent]. apply ra_store_browser.
        eapply (ra_new_context cost 0); [lia|]. intros c. cbn. repeat constructor.
Qed.

Lemma requests_advance {R : Type} (n : nat) (c : coro R) :
  requests_at_most cost n c ->
  forall w, requests_at_most cost n (advance c w).1 /\ eng (advance c w).2 = eng w.
Proof.
  intros H.
  induction H as [n r|n e|n k H IH|n b k H IH|n k H IH|n c k H IH|n m k Hle H IH
                 |n m pw hl args k Hle H IH|n m b vp ua k Hle H IH]; intros w; simpl.
  - split; [constructor | reflexivity].
  - split; [constructor | reflexivity].
  - apply IH.
  - destruct (IH (set_browser b w)). auto.
  - apply IH.
  - destruct (IH (set_context c w)). auto.
  - split; [econstructor; eassumption | reflexivity].
  - split; [econstructor; eassumption | reflexivity].
  - split; [econstructor; eassumption | reflexivity].
Qed.

Lemma requests_resume {R : Type} (n : nat) (c : coro R) (w : world) :
  requests_at_most cost n c ->
  exists m, requests_at_most cost m (resume c w).1
    /\ (holdings cost (eng (resume c w).2) + m <= holdings cost (eng w) + n)%nat.
Proof.
  intros H. destruct H as [n r|n e|n k H|n b k H|n k H|n c k H|n m k Hle H
                          |n m pw hl args k Hle H|n m b vp ua k Hle H].
  - exists n. split; [constructor | simpl; lia].
  - exists n. split; [constructor | simpl; lia].
  - destruct (requests_advance n (LoadBrowser k) (ra_load_browser cost n k H) w) as [A B].
    exists n. change (resume (LoadBrowser k) w) with (advance (LoadBrowser k) w).
    rewrite B. split; [exact A | lia].
  - destruct (requests_advance n (StoreBrowser b k) (ra_store_browser cost n b k H) w) as [A B].
    exists n. change (resume (StoreBrowser b k) w) with (advance (StoreBrowser b k) w).
    rewrite B. split; [exact A | lia].
  - destruct (requests_advance n (LoadContext k) (ra_load_context cost n k H) w) as [A B].
    exists n. change (resume (LoadContext k) w) with (advance (LoadContext k) w).
    rewrite B. split; [exact A | lia].
  - destruct (requests_advance n (StoreContext c k) (ra_store_context cost n c k H) w) as [A B].
    exists n. change (resume (StoreContext c k) w) with (advance (StoreContext c k) w).
    rewrite B. split; [exact A | lia].
  - exists n. simpl. unfold start. destruct (faults w (answered (eng w))) as [msg|].
    + split; [constructor | unfold holdings; simpl; lia].
    + match goal with |- context [advance ?c ?w'] =>
        destruct (requests_advance n c (H _) w') as [A B] end.
      rewrite B. split; [exact A|]. unfold holdings. simpl. rewrite length_app. simpl. lia.
  - exists n. simpl. unfold launch. destruct (faults w (answered (eng w))) as [msg|].
    + split; [constructor | unfold holdings; simpl; lia].
    + match goal with |- context [advance ?c ?w'] =>
        destruct (requests_advance n c (H _) w') as [A B] end.
      rewrite B. split; [exact A|]. unfold holdings. simpl. rewrite length_app. simpl. lia.
  - exists n. simpl. unfold new_context. destruct (faults w (answered (eng w))) as [msg|].
    + split; [constructor | unfold holdings; simpl; lia].
    + match goal with |- context [advance ?c ?w'] =>
        destruct (requests_advance n c (H _) w') as [A B] end.
      rewrite B. split; [exact A|]. unfold holdings. simpl. rewrite length_app. simpl. lia.
Qed.

Lemma request_budget_step (bound : nat) (s : system) (e : event) :
  request_budget cost bound s ->
  request_budget cost (bound + spawn_cost cost [e]) (step s e).
Proof.
  intros (ns & Hall & Hsum). destruct e as [c|i]; cbn [step spawn_cost sum_list_with].
  - exists (ns ++ [call_cost cost c]). split.
    + apply Forall2_app; [exact Hall|]. constructor; [apply requests_body | constructor].
    + cbn [sys_world]. rewrite sum_list_with_app. simpl. lia.
  - destruct (sys_tasks s !! i) as [t|] eqn:Ht; [|exists ns; split; [exact Hall | lia]].
    destruct (Forall2_lookup_r _ _ _ _ _ Hall Ht) as (n & Hn & Hcode).
    destruct (requests_resume n (task_code t) (sys_world s) Hcode) as (m & Hm & Hle).
    destruct (resume (task_code t) (sys_world s)) as [code' w']. cbn [fst snd] in *.
    exists (<[i := m]> ns). split.
    + apply Forall2_insert; [exact Hall | exact Hm].
    + pose proof (sum_list_insert ns i n m Hn). cbn [sys_world]. lia.
Qed.

Lemma request_budget_exec (evs : list event) :
  forall bound s,
    request_budget cost bound s -> request_budget cost (bound + spawn_cost cost evs) (exec s evs).
Proof.
  induction evs as [|e evs IH]; intros bound s H; cbn [exec fold_left].
  - unfold spawn_cost. simpl. rewrite Nat.add_0_r. exact H.
  - pose proof (request_budget_step bound s e H) as H'.
    specialize (IH _ _ H'). unfold exec in IH.
    replace (bound + spawn_cost cost (e :: evs))%nat
      with (bound + spawn_cost cost [e] + spawn_cost cost evs)%nat; [exact IH|].
    unfold spawn_cost. simpl. lia.
Qed.

Lemma holdings_boot (f : nat -> option pystr) (evs : list event) :
  (holdings cost (eng (sys_world (exec (boot f) evs))) <= spawn_cost cost evs)%nat.
Proof.
  destruct (request_budget_exec evs 0 (boot f)) as (ns & _ & H).
  - exists []. split; [constructor | unfold holdings; simpl; lia].
  - simpl in H. lia.
Qed.

End RequestFacts.

Section RequestBounds.
Import Session.

Lemma spawn_cost_start (evs : list event) :
  spawn_cost (fun r => match r with ReqStart => 1 | _ => 0 end)%nat evs = spawned evs.
Proof.
  unfold spawn_cost, spawned. induction evs as [|[[|]|i] evs IH]; simpl; lia.
Qed.

Lemma spawn_cost_context (evs : list event) :
  spawn_cost (fun r => match r with ReqNewContext => 1 | _ => 0 end)%nat evs
  = context_calls evs.
Proof.
  unfold spawn_cost, context_calls. induction evs as [|[[|]|i] evs IH]; simpl; lia.
Qed.

Lemma spawn_cost_all (evs : list event) :
  spawn_cost (fun _ => 1%nat) evs = (2 * browser_calls evs + 3 * context_calls evs)%nat.
Proof.
  unfold spawn_cost, browser_calls, context_calls.
  induction evs as [|[[|]|i] evs IH]; simpl in *; lia.
Qed.

(** X16.  Whatever calls are made and however their turns interleave,
    the engine holds no more than the accepted calls can have asked for:
    at most one driver per call, no context unless [get_browser_context]
    was called and at most one per such call, and in all at most two
    objects per call to [get_browser] and three per call to
    [get_browser_context]. *)
Theorem engine_holdings_bounded (f : nat -> option pystr) (evs : list event) :
  let e := eng (sys_world (exec (boot f) evs)) in
  (length (drivers e) <= spawned evs)%nat
  /\ (length (contexts e) <= context_calls evs)%nat
  /\ (length (drivers e) + length (browsers e) + length (contexts e)
      <= 2 * browser_calls evs + 3 * context_calls evs)%nat.
Proof.
  intros e. split; [|split].
  - pose proof (holdings_boot (fun r => match r with ReqStart => 1 | _ => 0 end)%nat f evs) as H.
    rewrite spawn_cost_start in H. unfold holdings in H. fold e in H. lia.
  - pose proof (holdings_boot (fun r => match r with ReqNewContext => 1 | _ => 0 end)%nat f evs)
      as H.
    rewrite spawn_cost_context in H. unfold holdings in H. fold e in H. lia.
  - pose proof (holdings_boot (fun _ => 1%nat) f evs) as H.
    rewrite spawn_cost_all in H. unfold holdings in H. fold e in H. lia.
Qed.

End RequestBounds.
